(** * The assistant bot of [task_4/assistant.py]

    A shallow embedding of the command-line assistant: the tokenizer
    [parse_input], the [input_error] decorator, the handlers
    [add_contact], [change_contact], [show_phone], [show_all] and the
    loop of [main], followed by the properties proved about them.  The
    memoized Fibonacci function of [task_1] and the log analyzer of
    [task_3] follow in modules of their own, [CachingFibonacci] and
    [LogAnalyzer].

    Conventions of the embedding.
    - A Python [str] is a [string]; each [ascii] is read as the code
      point of the same number, so the development covers the lines whose
      characters lie below code point 256.  [str_isspace] and
      [lower_char] are Python's tables restricted to that range.
    - The [dict] of contacts keeps insertion order, so it is an
      association list with unique keys, newest key last.
    - A handler is a function of the store returning a result (a value
      or a raised exception) together with the store it leaves behind. *)

From Equations Require Import Equations.
From Stdlib Require Import String Ascii List Bool Arith ZArith Lia.
Import ListNotations.
Open Scope string_scope.

(** ** Python string primitives used by the program *)

Module PyStr.

Definition between (lo n hi : nat) : bool := Nat.leb lo n && Nat.leb n hi.

(** Whitespace as [str.split], [str.strip] see it: TAB..CR, FS..US,
    space, NEL and NBSP. *)
Definition str_isspace (c : ascii) : bool :=
  let n := nat_of_ascii c in
  between 9 n 13 || between 28 n 32 || Nat.eqb n 133 || Nat.eqb n 160.

(** [str.lower] on one character: A..Z and the capital letters
    U+00C0..U+00DE except the multiplication sign U+00D7. *)
Definition lower_char (c : ascii) : ascii :=
  let n := nat_of_ascii c in
  if between 65 n 90 || (between 192 n 222 && negb (Nat.eqb n 215))
  then ascii_of_nat (n + 32) else c.

Fixpoint lower (s : string) : string :=
  match s with
  | EmptyString => EmptyString
  | String c s' => String (lower_char c) (lower s')
  end.

(** Truth value of a string: [if s] / [if not s]. *)
Definition truthy (s : string) : bool :=
  match s with EmptyString => false | String _ _ => true end.

(** [s += c] *)
Definition push_char (s : string) (c : ascii) : string :=
  s ++ String c EmptyString.

(** [sep.join(words)] *)
Fixpoint join (sep : string) (words : list string) : string :=
  match words with
  | [] => EmptyString
  | [w] => w
  | w :: rest => w ++ sep ++ join sep rest
  end.

(** [s.split()]: the maximal runs of non-whitespace characters.
    [word] is the run being read. *)
Fixpoint split_from (word : string) (s : string) : list string :=
  match s with
  | EmptyString => if truthy word then [word] else []
  | String c s' =>
      if str_isspace c
      then (if truthy word then word :: split_from EmptyString s'
            else split_from EmptyString s')
      else split_from (push_char word c) s'
  end.

Definition split (s : string) : list string := split_from EmptyString s.

Fixpoint lstrip (s : string) : string :=
  match s with
  | EmptyString => EmptyString
  | String c s' => if str_isspace c then lstrip s' else s
  end.

Fixpoint rstrip (s : string) : string :=
  match s with
  | EmptyString => EmptyString
  | String c s' =>
      let r := rstrip s' in
      if negb (truthy r) && str_isspace c then EmptyString else String c r
  end.

Definition strip (s : string) : string := rstrip (lstrip s).

(** The first run of non-whitespace characters of [s] and what
    follows it. *)
Fixpoint break_word (s : string) : string * string :=
  match s with
  | EmptyString => (EmptyString, EmptyString)
  | String c s' =>
      if str_isspace c then (EmptyString, s)
      else let '(w, r) := break_word s' in (String c w, r)
  end.

(** [s.split(maxsplit=1)]: the first word, then the remainder from its
    first non-whitespace character to the end of [s] (trailing
    whitespace kept), when there is one. *)
Definition split_maxsplit1 (s : string) : list string :=
  let s1 := lstrip s in
  if truthy s1 then
    let '(w, r) := break_word s1 in
    let r' := lstrip r in
    if truthy r' then [w; r'] else [w]
  else [].

(** [s.endswith(suffix)] *)
Fixpoint endswith1 (s suffix : string) : bool :=
  (s =? suffix) ||
  match s with
  | EmptyString => false
  | String _ s' => endswith1 s' suffix
  end.

(** [s.endswith((suffix1, suffix2, ...))] *)
Definition endswith (s : string) (suffixes : list string) : bool :=
  existsb (endswith1 s) suffixes.

End PyStr.

Import PyStr.

(** The two quote characters and the newline. *)
Definition dquote : ascii := "034"%char.
Definition squote : ascii := "'"%char.
Definition DQ : string := String dquote EmptyString.
Definition SQ : string := String squote EmptyString.
Definition NL : string := String "010"%char EmptyString.

(** ** The tokenizer: [parse_input] *)

(** The three variables of the character loop. *)
Record scan_state : Type := mkScan {
  args : list string;
  current_arg : string;
  in_quotes : option ascii
}.

Definition scan_init : scan_state :=
  {| args := []; current_arg := EmptyString; in_quotes := None |}.

(** The membership test of [char] in the pair of quote characters. *)
Definition is_quote (char : ascii) : bool :=
  Ascii.eqb char dquote || Ascii.eqb char squote.

(** One iteration of [for char in args_string]. *)
Definition scan_char (st : scan_state) (char : ascii) : scan_state :=
  match in_quotes st with
  | Some q =>
      if Ascii.eqb char q
      then {| args := args st; current_arg := current_arg st; in_quotes := None |}
      else {| args := args st;
              current_arg := push_char (current_arg st) char;
              in_quotes := Some q |}
  | None =>
      if is_quote char
      then {| args := args st; current_arg := current_arg st;
              in_quotes := Some char |}
      else if Ascii.eqb char " "
      then {| args := if truthy (current_arg st)
                      then args st ++ [current_arg st] else args st;
              current_arg := EmptyString;
              in_quotes := None |}
      else {| args := args st;
              current_arg := push_char (current_arg st) char;
              in_quotes := None |}
  end.

Fixpoint scan (st : scan_state) (s : string) : scan_state :=
  match s with
  | EmptyString => st
  | String char s' => scan (scan_char st char) s'
  end.

Definition is_none {A} (o : option A) : bool :=
  match o with None => true | Some _ => false end.

Definition is_nil {A} (l : list A) : bool :=
  match l with [] => true | _ :: _ => false end.

(** The test guarding the last [args.append(current_arg)]. *)
Definition final_push (args_string : string) (st : scan_state) : bool :=
  truthy (current_arg st)
  || ((current_arg st =? EmptyString)
      && is_none (in_quotes st)
      && endswith args_string [DQ; SQ]
      && is_nil (args st)).

(** What happens after the loop: the last append, then [return]. *)
Definition scan_finish (args_string : string) (st : scan_state) : list string :=
  if final_push args_string st then args st ++ [current_arg st] else args st.

(** The argument list computed from [args_string = parts[1]]. *)
Definition parse_args (args_string : string) : list string :=
  scan_finish args_string (scan scan_init args_string).

(** [parse_input].  [parts] is never empty when [user_input] is not (see
    [split_maxsplit1_normalized]); the first branch of the match is only
    there to make the function total. *)
Definition parse_input (user_input : string) : string * list string :=
  let user_input := join " " (split user_input) in
  if negb (truthy user_input) then (EmptyString, [])
  else
    match split_maxsplit1 user_input with
    | [] => (EmptyString, [])
    | [p0] => (lower (strip p0), [])
    | p0 :: args_string :: _ => (lower (strip p0), parse_args args_string)
    end.

(** ** The contact store: a [dict] from name to phone *)

Definition Contacts : Type := list (string * string).

(** [name in contacts] *)
Fixpoint dict_contains (name : string) (contacts : Contacts) : bool :=
  match contacts with
  | [] => false
  | (k, _) :: rest => (k =? name) || dict_contains name rest
  end.

(** [contacts[name]], [None] standing for the [KeyError]. *)
Fixpoint dict_get (name : string) (contacts : Contacts) : option string :=
  match contacts with
  | [] => None
  | (k, v) :: rest => if k =? name then Some v else dict_get name rest
  end.

(** [contacts[name] = phone]: an existing key keeps its place, a new key
    goes last. *)
Fixpoint dict_set (name phone : string) (contacts : Contacts) : Contacts :=
  match contacts with
  | [] => [(name, phone)]
  | (k, v) :: rest =>
      if k =? name then (k, phone) :: rest
      else (k, v) :: dict_set name phone rest
  end.

(** ** Exceptions and handlers *)

(** The exception classes that matter to [input_error]; [OtherError]
    stands for every class outside its [except] clause. *)
Inductive exception : Type :=
| ValueError
| IndexError
| KeyError
| OtherError.

Inductive result (A : Type) : Type :=
| Return (a : A)
| Raise (e : exception).

Arguments Return {A} a.
Arguments Raise {A} e.

(** A computation over the shared store that may raise. *)
Definition Handler (A : Type) : Type := Contacts -> result A * Contacts.

Definition ret {A} (a : A) : Handler A := fun contacts => (Return a, contacts).

Definition raise {A} (e : exception) : Handler A :=
  fun contacts => (Raise e, contacts).

Definition bind {A B} (m : Handler A) (k : A -> Handler B) : Handler B :=
  fun contacts =>
    match m contacts with
    | (Return a, contacts') => k a contacts'
    | (Raise e, contacts') => (Raise e, contacts')
    end.

Notation "x <- m ;; k" := (bind m (fun x => k))
  (at level 61, m at next level, right associativity).
Notation "' pat <- m ;; k" := (bind m (fun x => match x with pat => k end))
  (at level 61, pat pattern, m at next level, right associativity).
Notation "m ;;; k" := (bind m (fun _ => k))
  (at level 61, right associativity).

Definition contains (name : string) : Handler bool :=
  fun contacts => (Return (dict_contains name contacts), contacts).

Definition getitem (name : string) : Handler string :=
  fun contacts =>
    match dict_get name contacts with
    | Some phone => (Return phone, contacts)
    | None => (Raise KeyError, contacts)
    end.

Definition setitem (name phone : string) : Handler unit :=
  fun contacts => (Return tt, dict_set name phone contacts).

(** [a, b = args]: a list of any other length raises [ValueError]. *)
Definition unpack2 (args : list string) : Handler (string * string) :=
  match args with
  | [a; b] => ret (a, b)
  | _ => raise ValueError
  end.

(** [args[0]]: the empty list raises [IndexError]. *)
Definition index0 (args : list string) : Handler string :=
  match args with
  | a :: _ => ret a
  | [] => raise IndexError
  end.

Definition UNIVERSAL_ERROR_MESSAGE : string :=
  "Enter the argument for the command".

(** The classes named by [except (ValueError, IndexError, KeyError)]. *)
Definition caught (e : exception) : bool :=
  match e with
  | ValueError | IndexError | KeyError => true
  | OtherError => false
  end.

(** The decorator: [inner] runs [func] and replaces a caught exception
    by the universal message; any other exception goes on. *)
Definition input_error {A} (func : A -> Handler string) : A -> Handler string :=
  fun a contacts =>
    match func a contacts with
    | (Return s, contacts') => (Return s, contacts')
    | (Raise e, contacts') =>
        if caught e then (Return UNIVERSAL_ERROR_MESSAGE, contacts')
        else (Raise e, contacts')
    end.

(** The undecorated bodies. *)
Definition add_contact_func (args : list string) : Handler string :=
  '(name, phone) <- unpack2 args ;;
  present <- contains name ;;
  if (present : bool) then raise ValueError
  else setitem name phone ;;; ret "Contact added.".

Definition change_contact_func (args : list string) : Handler string :=
  '(name, new_phone) <- unpack2 args ;;
  present <- contains name ;;
  if negb present then raise KeyError
  else setitem name new_phone ;;; ret "Contact updated.".

Definition show_phone_func (args : list string) : Handler string :=
  name <- index0 args ;;
  getitem name.

(** The names as the module exports them: decorated. *)
Definition add_contact : list string -> Handler string :=
  input_error add_contact_func.

Definition change_contact : list string -> Handler string :=
  input_error change_contact_func.

Definition show_phone : list string -> Handler string :=
  input_error show_phone_func.

(** One line of [show_all]. *)
Definition contact_line (entry : string * string) : string :=
  let '(name, phone) := entry in name ++ ": " ++ phone.

(** [show_all]: the loop appends one line per item, in the order of
    [contacts.items()]. *)
Definition show_all (contacts : Contacts) : string :=
  if is_nil contacts then "No contacts saved."
  else
    let all_contacts :=
      fold_left (fun acc entry => (acc ++ [contact_line entry])%list) contacts [] in
    join NL all_contacts.

(** ** The loop of [main] *)

Inductive status : Type :=
| Running
| Terminated
| Crashed (e : exception).

(** What one iteration leaves behind: the strings given to [print], the
    store, and whether the loop goes on.  The prompt of [input] is not
    recorded. *)
Record outcome : Type := mkOutcome {
  printed : list string;
  store : Contacts;
  next : status
}.

(** [print(handler(args, contacts))] *)
Definition print_result (h : Handler string) (contacts : Contacts) : outcome :=
  match h contacts with
  | (Return s, contacts') =>
      {| printed := [s]; store := contacts'; next := Running |}
  | (Raise e, contacts') =>
      {| printed := []; store := contacts'; next := Crashed e |}
  end.

(** [command in ["close", "exit"]] *)
Definition is_exit (command : string) : bool :=
  existsb (String.eqb command) ["close"; "exit"].

(** The body of [while True] for a line that [input] returned.  The
    names [add_contact], [change_contact] and [show_phone] are looked up
    when the branch runs; [iteration_with] takes what they are bound to
    as arguments and [iteration] supplies the decorated handlers of the
    module. *)
Definition iteration_with
    (add_contact change_contact show_phone : list string -> Handler string)
    (contacts : Contacts) (line : string) : outcome :=
  let user_input := strip line in
  if negb (truthy user_input)
  then {| printed := []; store := contacts; next := Running |}
  else
    let '(command, args) := parse_input user_input in
    if is_exit command
    then {| printed := ["Good bye!"]; store := contacts; next := Terminated |}
    else if command =? "hello"
    then {| printed := ["How can I help you?"]; store := contacts; next := Running |}
    else if command =? "add" then print_result (add_contact args) contacts
    else if command =? "change" then print_result (change_contact args) contacts
    else if command =? "phone" then print_result (show_phone args) contacts
    else if command =? "all"
    then {| printed := [show_all contacts]; store := contacts; next := Running |}
    else {| printed := ["Invalid command."]; store := contacts; next := Running |}.

Definition iteration : Contacts -> string -> outcome :=
  iteration_with add_contact change_contact show_phone.

(** The loop over the lines the input source still holds; running out
    of lines is the [EOFError]. *)
Fixpoint main_loop (contacts : Contacts) (lines : list string) : list string * status :=
  match lines with
  | [] => ([NL ++ "Good bye!"], Terminated)
  | line :: rest =>
      let o := iteration contacts line in
      match next o with
      | Running =>
          let '(out, st) := main_loop (store o) rest in ((printed o ++ out)%list, st)
      | st => (printed o, st)
      end
  end.

Definition main (lines : list string) : list string * status :=
  let '(out, st) := main_loop [] lines in
  ("Welcome to the assistant bot!" :: out, st).

(** The verbs of the dispatcher. *)
Definition recognized : list string :=
  ["add"; "change"; "phone"; "all"; "hello"; "exit"; "close"].

(** ** Vocabulary of the statements *)

Fixpoint all_chars (p : ascii -> bool) (s : string) : bool :=
  match s with
  | EmptyString => true
  | String c s' => p c && all_chars p s'
  end.

Definition nonspace (c : ascii) : bool := negb (str_isspace c).

(** A word as [split] yields them: not empty, free of whitespace. *)
Definition is_word (w : string) : bool := truthy w && all_chars nonspace w.

(** What a line is made of once [parse_input] has normalized it: no
    whitespace character but the space itself. *)
Definition normal_char (c : ascii) : bool := nonspace c || Ascii.eqb c " ".

(** An argument that needs no quoting: not empty, free of spaces and of
    both quote characters. *)
Definition bare_char (c : ascii) : bool :=
  negb (Ascii.eqb c " ") && negb (is_quote c).

Definition bare_arg (a : string) : bool := truthy a && all_chars bare_char a.

(** The command followed by its arguments, single spaces between. *)
Definition rejoin (parsed : string * list string) : string :=
  join " " (fst parsed :: snd parsed).

(** [parts[1]] of a line, the string the character loop runs over
    (empty when the line has no second part). *)
Definition args_string_of (line : string) : string :=
  match split_maxsplit1 (join " " (split line)) with
  | _ :: args_string :: _ => args_string
  | _ => EmptyString
  end.

(** The loop leaves every quote closed. *)
Definition balanced_quotes (line : string) : bool :=
  is_none (in_quotes (scan scan_init (args_string_of line))).

(** The argument string ends with a token made of empty quoted spans
    only: the buffer is empty, no quote is open, and the last character
    is a quote. *)
Definition trailing_empty_quoted (args_string : string) : bool :=
  let st := scan scan_init args_string in
  (current_arg st =? EmptyString)
  && is_none (in_quotes st)
  && endswith args_string [DQ; SQ].

(** Every character collected so far satisfies [p]. *)
Definition chars_ok (p : ascii -> bool) (st : scan_state) : Prop :=
  Forall (fun a => all_chars p a = true) (args st)
  /\ all_chars p (current_arg st) = true.

(** The number of space characters of a string. *)
Fixpoint count_spaces (s : string) : nat :=
  match s with
  | EmptyString => 0
  | String c s' => (if Ascii.eqb c " " then 1 else 0) + count_spaces s'
  end.

(** A character that is not a quote character. *)
Definition not_quote (c : ascii) : bool := negb (is_quote c).

(** ** Sample lines *)

(** The line made of add, x and an empty pair of double quotes. *)
Definition line_add_x_empty : string := "add x " ++ DQ ++ DQ.

(** The line made of add, John Smith in double quotes, and 123. *)
Definition line_john_smith : string :=
  "add " ++ DQ ++ "John Smith" ++ DQ ++ " 123".

(** * The memoized Fibonacci function of [task_1/caching_fibonacci.py]

    [caching_fibonacci()] returns the closure [fibonacci] over a cache
    that starts empty and that only [fibonacci] reads and writes.  The
    closure is modelled by its cache, threaded through the calls.  Python
    integers are unbounded, so they are [Z]; the interpreter's limit on
    the depth of recursion is not modelled. *)

Module CachingFibonacci.

Definition Cache : Type := list (Z * Z).

(** [cache[n]], guarded in the source by [n in cache]. *)
Fixpoint cache_get (n : Z) (cache : Cache) : option Z :=
  match cache with
  | [] => None
  | (k, v) :: rest => if Z.eqb k n then Some v else cache_get n rest
  end.

(** [cache[n] = result] *)
Fixpoint cache_set (n v : Z) (cache : Cache) : Cache :=
  match cache with
  | [] => [(n, v)]
  | (k, w) :: rest =>
      if Z.eqb k n then (k, v) :: rest else (k, w) :: cache_set n v rest
  end.

#[local] Unset Equations With Funext.

(** The inner function.  The call on [n - 1] runs first and hands its
    cache to the call on [n - 2]; an exception of either would go up. *)
Equations? fibonacci (n : Z) (cache : Cache) : result Z * Cache
  by wf (Z.to_nat n) lt :=
fibonacci n cache with Z_lt_dec n 0 := {
  | left _ => (Raise ValueError, cache)
  | right _ with Z_le_dec n 0 := {
    | left _ => (Return 0%Z, cache)
    | right _ with Z.eq_dec n 1 := {
      | left _ => (Return 1%Z, cache)
      | right _ with cache_get n cache := {
        | Some v => (Return v, cache)
        | None with fibonacci (n - 1) cache := {
          | (Raise e, cache1) => (Raise e, cache1)
          | (Return a, cache1) with fibonacci (n - 2) cache1 := {
            | (Raise e, cache2) => (Raise e, cache2)
            | (Return b, cache2) =>
                (Return (a + b)%Z, cache_set n (a + b) cache2) } } } } } }.
Proof. all: lia. Qed.

(** The cache of a closure that [caching_fibonacci()] has just made. *)
Definition caching_fibonacci : Cache := [].


(** The Fibonacci numbers: 0, 1, and each next the sum of the two
    before. *)
Fixpoint fib_nat (k : nat) : Z :=
  match k with
  | O => 0%Z
  | S k1 =>
      match k1 with
      | O => 1%Z
      | S k2 => (fib_nat k1 + fib_nat k2)%Z
      end
  end.

Definition fib (n : Z) : Z := fib_nat (Z.to_nat n).

(** Every entry of the cache holds the Fibonacci number of its key. *)
Definition cache_sound (cache : Cache) : Prop :=
  forall k v, cache_get k cache = Some v -> v = fib k.

(** [cache'] holds every entry of [cache]. *)
Definition cache_extends (cache cache' : Cache) : Prop :=
  forall k v, cache_get k cache = Some v -> cache_get k cache' = Some v.

End CachingFibonacci.

(** * The log analyzer of [task_3/log_analyzer.py]

    Here a Python [str] is the list of its code points, of any size, so
    that [isspace] is the whole table of [str.strip].  [str.upper] is a
    parameter: the functions are modelled for any given [upper], and no
    statement assumes more about it than it says.  What is printed to
    the standard error is recorded as a [diagnostic] holding the parts
    of the message.  The reading of the command line and the two
    [display] functions are left out. *)

Module LogAnalyzer.

Definition str : Type := list N.

(** The code points of a literal. *)
Definition of_string (s : string) : str :=
  map N_of_ascii (list_ascii_of_string s).

Definition in_range (lo c hi : N) : bool := N.leb lo c && N.leb c hi.

(** Whitespace as [str.strip] sees it. *)
Definition isspace (c : N) : bool :=
  in_range 9 c 13 || in_range 28 c 32 || N.eqb c 133 || N.eqb c 160
  || N.eqb c 5760 || in_range 8192 c 8202 || N.eqb c 8232 || N.eqb c 8233
  || N.eqb c 8239 || N.eqb c 8287 || N.eqb c 12288.

Fixpoint lstrip (s : str) : str :=
  match s with
  | [] => []
  | c :: s' => if isspace c then lstrip s' else s
  end.

Fixpoint rstrip (s : str) : str :=
  match s with
  | [] => []
  | c :: s' =>
      match rstrip s' with
      | [] => if isspace c then [] else [c]
      | r => c :: r
      end
  end.

Definition strip (s : str) : str := rstrip (lstrip s).

Definition space : N := 32%N.

(** What stands before the first [sep] of [s] and what stands after. *)
Fixpoint break_at (sep : N) (s : str) : option (str * str) :=
  match s with
  | [] => None
  | c :: s' =>
      if N.eqb c sep then Some ([], s')
      else match break_at sep s' with
           | Some (a, b) => Some (c :: a, b)
           | None => None
           end
  end.

(** [s.split(sep, maxsplit)] for a separator of one character. *)
Fixpoint split_sep (sep : N) (maxsplit : nat) (s : str) : list str :=
  match maxsplit with
  | O => [s]
  | S m =>
      match break_at sep s with
      | Some (a, b) => a :: split_sep sep m b
      | None => [s]
      end
  end.

Fixpoint str_eqb (a b : str) : bool :=
  match a, b with
  | [], [] => true
  | x :: a', y :: b' => N.eqb x y && str_eqb a' b'
  | _, _ => false
  end.

Definition LOG_LEVELS : list str :=
  map of_string ["INFO"; "ERROR"; "DEBUG"; "WARNING"].

(** The dictionary [parse_log_line] returns. *)
Record log : Type := mkLog {
  date : str;
  time : str;
  level : str;
  message : str
}.

(** The messages for the standard error, by their parts. *)
Inductive diagnostic : Type :=
| IncorrectFormat (line : str)
| UnknownLevel (level line : str)
| FileNotFound.


(** [counts[key] += 1] on a [defaultdict(int)]. *)
Fixpoint increment (key : str) (counts : list (str * nat)) : list (str * nat) :=
  match counts with
  | [] => [(key, 1)]
  | (k, n) :: rest =>
      if str_eqb k key then (k, S n) :: rest
      else (k, n) :: increment key rest
  end.

(** [counts.get(key)] *)
Fixpoint counts_get (key : str) (counts : list (str * nat)) : option nat :=
  match counts with
  | [] => None
  | (k, n) :: rest => if str_eqb k key then Some n else counts_get key rest
  end.

(** [count_logs_by_level] *)
Definition count_logs_by_level (logs : list log) : list (str * nat) :=
  fold_left (fun counts entry => increment (level entry) counts) logs [].

(** The number of entries of [logs] whose level is [lvl]. *)
Definition occurrences (lvl : str) (logs : list log) : nat :=
  length (filter (fun entry => str_eqb (level entry) lvl) logs).

(** The sum of the values of [counts]. *)
Definition total (counts : list (str * nat)) : nat :=
  fold_right (fun kv acc => snd kv + acc) 0 counts.

Section WithUpper.

Variable upper : str -> str.

(** [parse_log_line]: no step of the body can raise, so the handler of
    [Exception] is left out. *)
Definition parse_log_line (line : str) : option log * list diagnostic :=
  match split_sep space 3 (strip line) with
  | p0 :: p1 :: p2 :: p3 :: _ =>
      let level := upper p2 in
      if negb (existsb (str_eqb level) LOG_LEVELS)
      then (None, [UnknownLevel level (strip line)])
      else (Some {| date := p0; time := p1; level := level;
                    message := strip p3 |}, [])
  | _ => (None, [IncorrectFormat (strip line)])
  end.




End WithUpper.

(** [str.upper] on a text of ASCII characters. *)
Definition upper_ascii (s : str) : str :=
  map (fun c => if in_range 97 c 122 then (c - 32)%N else c) s.

(** A line of a log file and the log it stands for. *)
Definition sample_line : str :=
  of_string "2024-01-22 08:30:01 info User logged in.".

Definition sample_log : log :=
  {| date := of_string "2024-01-22"; time := of_string "08:30:01";
     level := of_string "INFO"; message := of_string "User logged in." |}.

End LogAnalyzer.

(** ** Facts about the string primitives *)

Section StringFacts.

Lemma append_nil_r (s : string) : s ++ "" = s.
Proof. induction s as [|c s IH]; simpl; [reflexivity | now rewrite IH]. Qed.

Lemma append_assoc (a b c : string) : (a ++ b) ++ c = a ++ (b ++ c).
Proof. induction a as [|x a IH]; simpl; [reflexivity | now rewrite IH]. Qed.

Lemma truthy_false (s : string) : truthy s = false <-> s = "".
Proof. destruct s; simpl; split; congruence. Qed.

Lemma truthy_append (a b : string) : truthy (a ++ b) = truthy a || truthy b.
Proof. destruct a; simpl; [reflexivity | reflexivity]. Qed.

Lemma push_char_cons (c : ascii) (s : string) (d : ascii) :
  push_char (String c s) d = String c (push_char s d).
Proof. reflexivity. Qed.

Lemma all_chars_append p (a b : string) :
  all_chars p (a ++ b) = all_chars p a && all_chars p b.
Proof.
  induction a as [|x a IH]; simpl; [reflexivity|].
  now rewrite IH, andb_assoc.
Qed.

Lemma all_chars_impl (p q : ascii -> bool) (s : string) :
  (forall c, p c = true -> q c = true) ->
  all_chars p s = true -> all_chars q s = true.
Proof.
  intros Hpq; induction s as [|c s IH]; simpl; [reflexivity|].
  rewrite !andb_true_iff; intros [Hc Hs]; auto.
Qed.

Lemma isspace_lower_char (c : ascii) :
  str_isspace (lower_char c) = str_isspace c.
Proof. destruct c as [[] [] [] [] [] [] [] []]; reflexivity. Qed.

Lemma lower_char_idem (c : ascii) : lower_char (lower_char c) = lower_char c.
Proof. destruct c as [[] [] [] [] [] [] [] []]; reflexivity. Qed.

Lemma is_word_lower (w : string) : is_word (lower w) = is_word w.
Proof.
  unfold is_word. f_equal; [destruct w; reflexivity|].
  induction w as [|c w IH]; simpl; [reflexivity|].
  unfold nonspace at 1 3. now rewrite isspace_lower_char, IH.
Qed.

Lemma lower_idem (s : string) : lower (lower s) = lower s.
Proof.
  induction s as [|c s IH]; simpl; [reflexivity|].
  now rewrite lower_char_idem, IH.
Qed.

(** *** [split] *)

Lemma split_from_word (word w s : string) :
  all_chars nonspace w = true ->
  split_from word (w ++ s) = split_from (word ++ w) s.
Proof.
  revert word; induction w as [|c w IH]; intros word Hw; simpl in *.
  - now rewrite append_nil_r.
  - apply andb_true_iff in Hw as [Hc Hw].
    unfold nonspace in Hc. apply negb_true_iff in Hc. rewrite Hc.
    rewrite IH by assumption. unfold push_char.
    now rewrite append_assoc.
Qed.

Lemma split_from_words (word s : string) :
  all_chars nonspace word = true ->
  Forall (fun w => is_word w = true) (split_from word s).
Proof.
  revert word; induction s as [|c s IH]; intros word Hword; simpl.
  - destruct (truthy word) eqn:Ht; constructor; [|constructor].
    unfold is_word; now rewrite Ht, Hword.
  - destruct (str_isspace c) eqn:Hc.
    + destruct (truthy word) eqn:Ht; [constructor|]; try now apply IH.
      unfold is_word; now rewrite Ht, Hword.
    + apply IH. unfold push_char. rewrite all_chars_append, Hword. simpl.
      unfold nonspace. now rewrite Hc.
Qed.

Lemma split_words (s : string) :
  Forall (fun w => is_word w = true) (split s).
Proof. now apply split_from_words. Qed.

Lemma split_join (ws : list string) :
  Forall (fun w => is_word w = true) ws ->
  split (join " " ws) = ws.
Proof.
  unfold split. induction 1 as [|w ws Hw Hws IH]; [reflexivity|].
  unfold is_word in Hw. apply andb_true_iff in Hw as [Ht Hc].
  destruct ws as [|w' ws].
  - simpl. rewrite <- (append_nil_r w) at 1.
    rewrite split_from_word by assumption. simpl. now rewrite Ht.
  - change (join " " (w :: w' :: ws)) with (w ++ " " ++ join " " (w' :: ws)).
    rewrite split_from_word by assumption.
    change ("" ++ w) with w.
    change (" " ++ join " " (w' :: ws)) with (String " " (join " " (w' :: ws))).
    cbn [split_from]. change (str_isspace " ") with true. cbn iota.
    now rewrite Ht, IH.
Qed.

Lemma split_normalized (s : string) : split (join " " (split s)) = split s.
Proof. apply split_join, split_words. Qed.

End StringFacts.

(** *** [split(maxsplit=1)] and [strip] on a normalized line *)

Section Normalized.

Lemma join_cons (sep w : string) (ws : list string) :
  join sep (w :: ws) =
  w ++ match ws with [] => "" | _ :: _ => sep ++ join sep ws end.
Proof. destruct ws; simpl; [now rewrite append_nil_r | reflexivity]. Qed.

Lemma lstrip_word (w s : string) :
  is_word w = true -> lstrip (w ++ s) = w ++ s.
Proof.
  unfold is_word. destruct w as [|c w]; simpl; [discriminate|].
  rewrite andb_true_iff. unfold nonspace at 1.
  intros [Hc _]. apply negb_true_iff in Hc. now rewrite Hc.
Qed.

Lemma break_word_append (w s : string) :
  all_chars nonspace w = true ->
  break_word (w ++ s) = (w ++ fst (break_word s), snd (break_word s)).
Proof.
  induction w as [|c w IH]; simpl; intros Hw.
  - now destruct (break_word s).
  - apply andb_true_iff in Hw as [Hc Hw].
    unfold nonspace in Hc. apply negb_true_iff in Hc.
    now rewrite Hc, IH.
Qed.

Lemma rstrip_nonspace (w : string) :
  all_chars nonspace w = true -> rstrip w = w.
Proof.
  induction w as [|c w IH]; simpl; [reflexivity|].
  rewrite andb_true_iff. unfold nonspace at 1. intros [Hc Hw].
  apply negb_true_iff in Hc. now rewrite IH, Hc, andb_false_r.
Qed.

Lemma strip_word (w : string) : is_word w = true -> strip w = w.
Proof.
  intros Hw. unfold strip.
  rewrite <- (append_nil_r w) at 1. rewrite lstrip_word by assumption.
  rewrite append_nil_r. apply rstrip_nonspace.
  unfold is_word in Hw. now apply andb_true_iff in Hw.
Qed.

Lemma truthy_join_words (w : string) (ws : list string) :
  is_word w = true -> truthy (join " " (w :: ws)) = true.
Proof.
  intros Hw. rewrite join_cons, truthy_append.
  unfold is_word in Hw. apply andb_true_iff in Hw as [-> _]. reflexivity.
Qed.

Lemma split_maxsplit1_join (w : string) (ws : list string) :
  Forall (fun w => is_word w = true) (w :: ws) ->
  split_maxsplit1 (join " " (w :: ws)) =
  match ws with [] => [w] | _ :: _ => [w; join " " ws] end.
Proof.
  intros Hall. inversion Hall as [|? ? Hw Hws]; subst.
  assert (Hc : all_chars nonspace w = true)
    by (unfold is_word in Hw; now apply andb_true_iff in Hw).
  unfold split_maxsplit1.
  rewrite join_cons, lstrip_word by assumption.
  rewrite <- join_cons, truthy_join_words by assumption.
  rewrite join_cons, break_word_append by assumption.
  destruct ws as [|w' ws]; simpl.
  - now rewrite append_nil_r.
  - rewrite append_nil_r.
    inversion Hws as [|? ? Hw' _]; subst.
    replace (match ws with [] => w' | _ :: _ => w' ++ String " " (join " " ws) end)
      with (join " " (w' :: ws)) by reflexivity.
    rewrite join_cons, lstrip_word by assumption.
    rewrite <- join_cons, truthy_join_words by assumption.
    reflexivity.
Qed.

(** [parts] is never empty once the normalized line is not. *)
Lemma split_maxsplit1_normalized (line : string) :
  truthy (join " " (split line)) = true ->
  split_maxsplit1 (join " " (split line)) <> [].
Proof.
  intros Ht. pose proof (split_words line) as Hall.
  destruct (split line) as [|w ws]; [discriminate|].
  rewrite split_maxsplit1_join by assumption. now destruct ws.
Qed.

Lemma split_lstrip (s : string) : split (lstrip s) = split s.
Proof.
  unfold split. induction s as [|c s IH]; simpl; [reflexivity|].
  destruct (str_isspace c) eqn:Hc; [assumption|].
  simpl. now rewrite Hc.
Qed.

Lemma split_from_rstrip (word s : string) :
  split_from word (rstrip s) = split_from word s.
Proof.
  revert word; induction s as [|c s IH]; intros word; simpl; [reflexivity|].
  destruct (truthy (rstrip s)) eqn:Hr; simpl.
  - destruct (str_isspace c); now rewrite ?IH.
  - destruct (str_isspace c) eqn:Hc; simpl.
    + apply truthy_false in Hr. rewrite <- (IH ""), Hr. simpl.
      now destruct (truthy word).
    + now rewrite Hc, IH.
Qed.

Lemma split_strip (s : string) : split (strip s) = split s.
Proof.
  unfold strip, split at 1. rewrite split_from_rstrip. apply split_lstrip.
Qed.

Lemma truthy_strip (s : string) :
  split s <> [] -> truthy (strip s) = true.
Proof.
  intros Hne. destruct (truthy (strip s)) eqn:Ht; [reflexivity|].
  apply truthy_false in Ht. rewrite <- split_strip, Ht in Hne. now elim Hne.
Qed.

(** What [parse_input] computes, read off the words of the line. *)
Lemma parse_input_words (line : string) :
  parse_input line =
  match split line with
  | [] => ("", [])
  | [w] => (lower w, [])
  | w :: ws => (lower w, parse_args (join " " ws))
  end.
Proof.
  unfold parse_input. pose proof (split_words line) as Hall.
  destruct (split line) as [|w ws]; [reflexivity|].
  inversion Hall as [|? ? Hw _]; subst.
  rewrite truthy_join_words by assumption. cbn [negb].
  rewrite split_maxsplit1_join by assumption.
  destruct ws; now rewrite strip_word.
Qed.

End Normalized.

(** ** Facts about the character loop *)

Section ScanFacts.

Lemma scan_app (st : scan_state) (a b : string) :
  scan st (a ++ b) = scan (scan st a) b.
Proof. revert st; induction a as [|c a IH]; intros st; simpl; auto. Qed.

Lemma scan_snoc (st : scan_state) (s : string) (c : ascii) :
  scan st (push_char s c) = scan_char (scan st s) c.
Proof. unfold push_char. now rewrite scan_app. Qed.

(** Only non-empty buffers are appended inside the loop. *)
Lemma scan_char_args_truthy (st : scan_state) (c : ascii) :
  Forall (fun a => truthy a = true) (args st) ->
  Forall (fun a => truthy a = true) (args (scan_char st c)).
Proof.
  intros H. unfold scan_char.
  destruct (in_quotes st) as [q|].
  - destruct (Ascii.eqb c q); assumption.
  - destruct (is_quote c); [assumption|].
    destruct (Ascii.eqb c " "); [|assumption]. cbn [args].
    destruct (truthy (current_arg st)) eqn:Ht; [|assumption].
    apply Forall_app; split; [assumption|]. now constructor.
Qed.

Lemma scan_args_truthy (s : string) (st : scan_state) :
  Forall (fun a => truthy a = true) (args st) ->
  Forall (fun a => truthy a = true) (args (scan st s)).
Proof.
  revert st; induction s as [|c s IH]; intros st H; simpl; [assumption|].
  now apply IH, scan_char_args_truthy.
Qed.

Lemma scan_init_args_truthy (s : string) :
  Forall (fun a => truthy a = true) (args (scan scan_init s)).
Proof. apply scan_args_truthy. constructor. Qed.

(** The characters of the arguments are characters of the line. *)
Lemma scan_char_chars (p : ascii -> bool) (st : scan_state) (c : ascii) :
  p c = true -> chars_ok p st -> chars_ok p (scan_char st c).
Proof.
  intros Hc [Ha Hcur]. unfold scan_char, chars_ok, push_char.
  destruct (in_quotes st) as [q|].
  - destruct (Ascii.eqb c q); cbn [args current_arg]; split; auto.
    rewrite all_chars_append, Hcur. simpl. now rewrite Hc.
  - destruct (is_quote c); [split; assumption|].
    destruct (Ascii.eqb c " "); cbn [args current_arg]; split; auto.
    + destruct (truthy (current_arg st)); [|assumption].
      apply Forall_app; split; [assumption|]. now constructor.
    + rewrite all_chars_append, Hcur. simpl. now rewrite Hc.
Qed.

Lemma scan_chars (p : ascii -> bool) (s : string) (st : scan_state) :
  all_chars p s = true -> chars_ok p st -> chars_ok p (scan st s).
Proof.
  revert st; induction s as [|c s IH]; intros st Hs Hst; simpl; [assumption|].
  simpl in Hs. apply andb_true_iff in Hs as [Hc Hs].
  now apply IH, scan_char_chars.
Qed.

Lemma parse_args_chars (p : ascii -> bool) (s : string) :
  all_chars p s = true ->
  Forall (fun a => all_chars p a = true) (parse_args s).
Proof.
  intros Hs. unfold parse_args, scan_finish.
  destruct (scan_chars p s scan_init Hs) as [Ha Hcur]; [split; constructor|].
  destruct (final_push _ _); [|assumption].
  apply Forall_app; split; [assumption|]. now constructor.
Qed.

(** A run of bare characters read outside quotes lands in the buffer. *)
Lemma scan_bare (w : string) (a : list string) (cur : string) :
  all_chars bare_char w = true ->
  scan {| args := a; current_arg := cur; in_quotes := None |} w =
  {| args := a; current_arg := cur ++ w; in_quotes := None |}.
Proof.
  revert cur; induction w as [|c w IH]; intros cur Hw; simpl.
  - now rewrite append_nil_r.
  - simpl in Hw. apply andb_true_iff in Hw as [Hc Hw].
    unfold bare_char in Hc. apply andb_true_iff in Hc as [Hsp Hq].
    apply negb_true_iff in Hsp, Hq.
    unfold scan_char. cbn [in_quotes args current_arg].
    rewrite Hq, Hsp, IH by assumption. unfold push_char.
    now rewrite append_assoc.
Qed.

(** Bare arguments joined by single spaces are read back one by one. *)
Lemma scan_finish_join_bare (ws : list string) :
  forall (w s0 : string) (a : list string),
  Forall (fun x => bare_arg x = true) (w :: ws) ->
  scan_finish s0
    (scan {| args := a; current_arg := ""; in_quotes := None |}
          (join " " (w :: ws))) = (a ++ w :: ws)%list.
Proof.
  induction ws as [|w' ws IH]; intros w s0 a Hall;
    inversion Hall as [|? ? Hw Hws]; subst;
    unfold bare_arg in Hw; apply andb_true_iff in Hw as [Ht Hb].
  - cbn [join]. rewrite scan_bare by assumption.
    unfold scan_finish, final_push. cbn [args current_arg append].
    now rewrite Ht.
  - change (join " " (w :: w' :: ws))
      with (w ++ String " " (join " " (w' :: ws))).
    rewrite scan_app, scan_bare by assumption.
    cbn [scan append]. unfold scan_char at 1.
    cbn [in_quotes args current_arg].
    change (is_quote " ") with false. change (Ascii.eqb " " " ") with true.
    cbn iota. rewrite Ht, IH by assumption.
    now rewrite <- app_assoc.
Qed.

Lemma parse_args_join_bare (ws : list string) :
  Forall (fun x => bare_arg x = true) ws ->
  parse_args (join " " ws) = ws.
Proof.
  destruct ws as [|w ws]; [reflexivity|]. intros Hall.
  unfold parse_args, scan_init. now rewrite scan_finish_join_bare.
Qed.

Lemma parse_input_args (line : string) :
  snd (parse_input line) = parse_args (args_string_of line).
Proof.
  unfold args_string_of. rewrite parse_input_words.
  pose proof (split_words line) as Hall.
  destruct (split line) as [|w ws]; [reflexivity|].
  rewrite split_maxsplit1_join by assumption.
  now destruct ws.
Qed.

End ScanFacts.

(** ** The tokenizer *)

Section TokenizerProperties.

(** The edge cases of the empty quoted token: alone it is kept, before
    another argument it vanishes, after an empty one it is kept once. *)
Example empty_quoted_alone :
  parse_input ("add " ++ DQ ++ DQ) = ("add", [""]).
Proof. reflexivity. Qed.

Example empty_quoted_interior :
  parse_input ("add " ++ DQ ++ DQ ++ " x") = ("add", ["x"]).
Proof. reflexivity. Qed.

Example empty_quoted_twice :
  parse_input ("add " ++ DQ ++ DQ ++ " " ++ SQ ++ SQ) = ("add", [""]).
Proof. reflexivity. Qed.

(** C1, as stated, fails: in [line_add_x_empty] the argument string (an
    x, a space, an empty pair of double quotes) ends with an empty quoted
    token and with a quote character, yet the tokenizer returns the
    single argument [x] and no empty argument. *)
Lemma trailing_empty_after_arg_dropped :
  trailing_empty_quoted (args_string_of line_add_x_empty) = true
  /\ parse_input line_add_x_empty = ("add", ["x"])
  /\ ~ In "" (snd (parse_input line_add_x_empty)).
Proof.
  split; [reflexivity|]. split; [reflexivity|].
  simpl. intros [H|[]]. discriminate H.
Qed.

(** C1, amended: for every line, the arguments contain an empty string
    exactly when the argument string ends with an empty quoted token and
    a quote character and the loop has collected no argument before it;
    the argument list is then the one-element list of the empty string.
    Every other empty quoted segment is dropped. *)
Theorem empty_argument_only_alone (line : string) :
  let args_string := args_string_of line in
  (In "" (snd (parse_input line)) <->
   trailing_empty_quoted args_string = true
   /\ args (scan scan_init args_string) = [])
  /\ (In "" (snd (parse_input line)) -> snd (parse_input line) = [""]).
Proof.
  intros s. rewrite parse_input_args. fold s.
  pose proof (scan_init_args_truthy s) as Hargs.
  unfold parse_args, scan_finish, trailing_empty_quoted, final_push.
  set (st := scan scan_init s) in *.
  assert (Hno : ~ In "" (args st)).
  { intros Hin. rewrite Forall_forall in Hargs.
    specialize (Hargs _ Hin). discriminate Hargs. }
  destruct (current_arg st) as [|c cur] eqn:Hcur; cbn [truthy orb String.eqb andb].
  - destruct (is_none (in_quotes st)), (endswith s [DQ; SQ]);
      cbn [andb]; try (split; [split; [tauto | intros [H _]; discriminate H] | tauto]).
    destruct (args st) as [|a l] eqn:Ha; cbn [is_nil app].
    + split; [split; [now split | now left] | reflexivity].
    + split; [split; [tauto | intros [_ H]; discriminate H] | tauto].
  - assert (Hno' : ~ In "" (args st ++ [String c cur])%list).
    { rewrite in_app_iff. intros [H|[H|[]]]; [tauto | discriminate H]. }
    split; [split; [tauto | intros [H _]; discriminate H] | tauto].
Qed.

(** C6: outside quotes a quote character opens a span and is not kept;
    inside a span opened by [q] the character [q] closes it and is not
    kept, while any other character, the other quote included, is
    appended; at the end of a scan that leaves a quote open the buffer is
    pushed if it is not empty and nothing is pushed otherwise.  The line
    add, John Smith in double quotes, 123-456 gives the command add with
    the arguments John Smith and 123-456; with the closing quote and
    what follows it left out, it gives the one argument John Smith. *)
Theorem quote_state_machine :
  (forall a cur q, is_quote q = true ->
     scan_char {| args := a; current_arg := cur; in_quotes := None |} q =
     {| args := a; current_arg := cur; in_quotes := Some q |})
  /\ (forall a cur q,
     scan_char {| args := a; current_arg := cur; in_quotes := Some q |} q =
     {| args := a; current_arg := cur; in_quotes := None |})
  /\ (forall a cur q c, c <> q ->
     scan_char {| args := a; current_arg := cur; in_quotes := Some q |} c =
     {| args := a; current_arg := push_char cur c; in_quotes := Some q |})
  /\ (forall a cur,
     scan_char {| args := a; current_arg := cur; in_quotes := Some dquote |} squote =
     {| args := a; current_arg := push_char cur squote; in_quotes := Some dquote |}
     /\
     scan_char {| args := a; current_arg := cur; in_quotes := Some squote |} dquote =
     {| args := a; current_arg := push_char cur dquote; in_quotes := Some squote |})
  /\ (forall args_string q,
     in_quotes (scan scan_init args_string) = Some q ->
     parse_args args_string =
     let st := scan scan_init args_string in
     if truthy (current_arg st) then (args st ++ [current_arg st])%list
     else args st)
  /\ parse_input ("add " ++ DQ ++ "John Smith" ++ DQ ++ " 123-456")
     = ("add", ["John Smith"; "123-456"])
  /\ parse_input ("add " ++ DQ ++ "John Smith") = ("add", ["John Smith"]).
Proof.
  repeat split.
  - intros a cur q Hq. unfold scan_char. cbn [in_quotes]. now rewrite Hq.
  - intros a cur q. unfold scan_char. cbn [in_quotes].
    now rewrite Ascii.eqb_refl.
  - intros a cur q c Hne. unfold scan_char. cbn [in_quotes].
    apply Ascii.eqb_neq in Hne. now rewrite Hne.
  - intros args_string q Hq. unfold parse_args, scan_finish, final_push.
    rewrite Hq. cbn [is_none]. now rewrite andb_false_r, orb_false_r.
Qed.

(** A use of [quote_state_machine]: a double quote read outside quotes
    opens a span, and the scan of x, space, double quote, y pushes x and
    then, the quote being open at the end, the buffer y. *)
Lemma quote_state_machine_witness :
  scan_char {| args := []; current_arg := "x"; in_quotes := None |} dquote =
  {| args := []; current_arg := "x"; in_quotes := Some dquote |}
  /\ parse_args ("x " ++ DQ ++ "y") = ["x"; "y"].
Proof.
  split.
  - apply (proj1 quote_state_machine). reflexivity.
  - rewrite (proj1 (proj2 (proj2 (proj2 (proj2 quote_state_machine))))
               ("x " ++ DQ ++ "y") dquote); reflexivity.
Defined.

Lemma all_chars_both (p q : ascii -> bool) (s : string) :
  all_chars p s = true -> all_chars q s = true ->
  all_chars (fun c => p c && q c) s = true.
Proof.
  induction s as [|c s IH]; simpl; [reflexivity|].
  rewrite !andb_true_iff. intros [Hp Hs] [Hq Hs']. auto.
Qed.

Lemma join_words_normal (ws : list string) :
  Forall (fun w => is_word w = true) ws ->
  all_chars normal_char (join " " ws) = true.
Proof.
  induction 1 as [|w ws Hw _ IH]; [reflexivity|].
  rewrite join_cons, all_chars_append.
  unfold is_word in Hw. apply andb_true_iff in Hw as [_ Hw].
  apply andb_true_iff; split.
  - revert Hw. apply all_chars_impl. intros c Hc.
    unfold normal_char. now rewrite Hc.
  - destruct ws; [reflexivity|]. exact IH.
Qed.

Lemma bare_normal_word (a : string) :
  bare_arg a = true -> all_chars normal_char a = true -> is_word a = true.
Proof.
  unfold bare_arg, is_word. rewrite !andb_true_iff. intros [Ht Hb] Hn.
  split; [assumption|].
  generalize (all_chars_both _ _ _ Hb Hn). apply all_chars_impl.
  intros c. unfold bare_char, normal_char.
  destruct (nonspace c); [reflexivity|].
  destruct (Ascii.eqb c " "); simpl; rewrite ?andb_false_r;
    intros H; discriminate H.
Qed.

(** C4, as stated, fails: the line add, John Smith in double quotes, 123
    has balanced quotes and nothing but that one pair of quotes; its
    arguments are John Smith and 123, and the line rejoined with single
    spaces tokenizes to the three arguments John, Smith and 123. *)
Lemma rejoin_splits_quoted_argument :
  balanced_quotes line_john_smith = true
  /\ snd (parse_input line_john_smith) = ["John Smith"; "123"]
  /\ rejoin (parse_input line_john_smith) = "add John Smith 123"
  /\ snd (parse_input (rejoin (parse_input line_john_smith)))
     = ["John"; "Smith"; "123"]
  /\ snd (parse_input (rejoin (parse_input line_john_smith)))
     <> snd (parse_input line_john_smith).
Proof.
  do 4 (split; [reflexivity|]).
  intros H. vm_compute in H. discriminate H.
Qed.

(** C4, amended: for every line whose arguments are each non-empty and
    free of spaces and of quote characters, tokenizing, rejoining the
    command and the arguments with single spaces and tokenizing again
    gives the same argument sequence. *)
Theorem retokenize_bare_arguments (line : string) :
  Forall (fun a => bare_arg a = true) (snd (parse_input line)) ->
  snd (parse_input (rejoin (parse_input line))) = snd (parse_input line).
Proof.
  rewrite (parse_input_words line).
  pose proof (split_words line) as Hall.
  destruct (split line) as [|w ws]; [reflexivity|].
  inversion Hall as [|? ? Hw Hws]; subst.
  assert (Hlw : is_word (lower w) = true) by now rewrite is_word_lower.
  destruct ws as [|w' ws].
  - intros _. unfold rejoin. cbn [fst snd join].
    assert (Hs : split (lower w) = [lower w])
      by (apply (split_join [lower w]); now constructor).
    now rewrite parse_input_words, Hs.
  - cbn [snd fst]. set (a := parse_args (join " " (w' :: ws))). intros Hbare.
    assert (Hwords : Forall (fun x => is_word x = true) a).
    { pose proof (parse_args_chars normal_char _ (join_words_normal _ Hws)) as Hn.
      fold a in Hn. rewrite Forall_forall in *. intros x Hx.
      apply bare_normal_word; auto. }
    unfold rejoin. cbn [fst snd].
    rewrite parse_input_words, split_join by (now constructor).
    destruct a as [|x a']; [reflexivity|].
    cbn [snd]. now apply parse_args_join_bare.
Qed.

(** A use of [retokenize_bare_arguments] on the line add Ann 999. *)
Lemma retokenize_bare_arguments_witness :
  snd (parse_input (rejoin (parse_input "add Ann 999")))
  = snd (parse_input "add Ann 999").
Proof.
  apply (retokenize_bare_arguments "add Ann 999").
  repeat constructor.
Defined.

(** C7: [parse_input] works on the line with every whitespace run turned
    into one space and the ends trimmed, so two lines with the same words
    parse alike; it returns the empty command and no argument when
    nothing is left; the command is the first word in lower case; and a
    line whose first word is exit or close in any case ends the session
    with the store untouched, as EXIT and Close do. *)
Theorem command_normalized_lowercase :
  (forall line, parse_input line = parse_input (join " " (split line)))
  /\ (forall l1 l2, split l1 = split l2 -> parse_input l1 = parse_input l2)
  /\ (forall line, join " " (split line) = "" -> parse_input line = ("", []))
  /\ (forall line w rest, split line = w :: rest ->
        fst (parse_input line) = lower w)
  /\ (forall contacts line w rest, split line = w :: rest ->
        lower w = "exit" \/ lower w = "close" ->
        iteration contacts line =
        {| printed := ["Good bye!"]; store := contacts; next := Terminated |})
  /\ parse_input "  ADD   Ann   999  " = ("add", ["Ann"; "999"])
  /\ main ["EXIT"] = (["Welcome to the assistant bot!"; "Good bye!"], Terminated)
  /\ main ["Close"] = (["Welcome to the assistant bot!"; "Good bye!"], Terminated).
Proof.
  split; [|split; [|split; [|split; [|split; [|repeat split]]]]].
  - intros line. now rewrite !parse_input_words, split_normalized.
  - intros l1 l2 H. now rewrite !parse_input_words, H.
  - intros line H. unfold parse_input. now rewrite H.
  - intros line w rest H. rewrite parse_input_words, H. now destruct rest.
  - intros contacts line w rest H Hcmd.
    unfold iteration, iteration_with.
    rewrite truthy_strip by (rewrite H; discriminate). cbn [negb].
    rewrite parse_input_words, split_strip, H.
    assert (Hex : is_exit (lower w) = true)
      by (destruct Hcmd as [-> | ->]; reflexivity).
    destruct rest; now rewrite Hex.
Qed.

(** A use of [command_normalized_lowercase]: the first word of eXiT now
    is lowered to exit and the loop stops. *)
Lemma command_normalized_lowercase_witness :
  iteration [("Ann", "999")] "  eXiT   now" =
  {| printed := ["Good bye!"]; store := [("Ann", "999")]; next := Terminated |}.
Proof.
  apply (proj1 (proj2 (proj2 (proj2 (proj2 command_normalized_lowercase))))
           [("Ann", "999")] "  eXiT   now" "eXiT" ["now"]).
  - reflexivity.
  - left. reflexivity.
Defined.

End TokenizerProperties.

(** ** The handlers and the error normalizer *)

Section HandlerProperties.

(** The decorated handlers, case by case. *)
Lemma add_contact_func_eq (args : list string) (contacts : Contacts) :
  add_contact_func args contacts =
  match args with
  | [name; phone] =>
      if dict_contains name contacts then (Raise ValueError, contacts)
      else (Return "Contact added.", dict_set name phone contacts)
  | _ => (Raise ValueError, contacts)
  end.
Proof.
  destruct args as [|name [|phone [|x l]]]; try reflexivity.
  unfold add_contact_func, bind, unpack2, ret, contains.
  now destruct (dict_contains name contacts).
Qed.

Lemma change_contact_func_eq (args : list string) (contacts : Contacts) :
  change_contact_func args contacts =
  match args with
  | [name; new_phone] =>
      if dict_contains name contacts
      then (Return "Contact updated.", dict_set name new_phone contacts)
      else (Raise KeyError, contacts)
  | _ => (Raise ValueError, contacts)
  end.
Proof.
  destruct args as [|name [|phone [|x l]]]; try reflexivity.
  unfold change_contact_func, bind, unpack2, ret, contains.
  now destruct (dict_contains name contacts).
Qed.

Lemma show_phone_func_eq (args : list string) (contacts : Contacts) :
  show_phone_func args contacts =
  match args with
  | name :: _ =>
      match dict_get name contacts with
      | Some phone => (Return phone, contacts)
      | None => (Raise KeyError, contacts)
      end
  | [] => (Raise IndexError, contacts)
  end.
Proof. destruct args; reflexivity. Qed.

Lemma add_contact_eq (args : list string) (contacts : Contacts) :
  add_contact args contacts =
  match args with
  | [name; phone] =>
      if dict_contains name contacts
      then (Return UNIVERSAL_ERROR_MESSAGE, contacts)
      else (Return "Contact added.", dict_set name phone contacts)
  | _ => (Return UNIVERSAL_ERROR_MESSAGE, contacts)
  end.
Proof.
  unfold add_contact, input_error. rewrite add_contact_func_eq.
  destruct args as [|name [|phone [|x l]]]; try reflexivity.
  now destruct (dict_contains name contacts).
Qed.

Lemma change_contact_eq (args : list string) (contacts : Contacts) :
  change_contact args contacts =
  match args with
  | [name; new_phone] =>
      if dict_contains name contacts
      then (Return "Contact updated.", dict_set name new_phone contacts)
      else (Return UNIVERSAL_ERROR_MESSAGE, contacts)
  | _ => (Return UNIVERSAL_ERROR_MESSAGE, contacts)
  end.
Proof.
  unfold change_contact, input_error. rewrite change_contact_func_eq.
  destruct args as [|name [|phone [|x l]]]; try reflexivity.
  now destruct (dict_contains name contacts).
Qed.

Lemma show_phone_eq (args : list string) (contacts : Contacts) :
  show_phone args contacts =
  match args with
  | name :: _ =>
      match dict_get name contacts with
      | Some phone => (Return phone, contacts)
      | None => (Return UNIVERSAL_ERROR_MESSAGE, contacts)
      end
  | [] => (Return UNIVERSAL_ERROR_MESSAGE, contacts)
  end.
Proof.
  unfold show_phone, input_error. rewrite show_phone_func_eq.
  destruct args as [|name l]; [reflexivity|].
  now destruct (dict_get name contacts).
Qed.

(** A decorated handler always hands back a string. *)
Lemma decorated_returns (h : list string -> Handler string) :
  In h [add_contact; change_contact; show_phone] ->
  forall args contacts, exists s, fst (h args contacts) = Return s.
Proof.
  intros [<-|[<-|[<-|[]]]] args contacts.
  - rewrite add_contact_eq.
    destruct args as [|name [|phone [|x l]]]; try (eexists; reflexivity).
    destruct (dict_contains name contacts); eexists; reflexivity.
  - rewrite change_contact_eq.
    destruct args as [|name [|phone [|x l]]]; try (eexists; reflexivity).
    destruct (dict_contains name contacts); eexists; reflexivity.
  - rewrite show_phone_eq.
    destruct args as [|name l]; [eexists; reflexivity|].
    destruct (dict_get name contacts); eexists; reflexivity.
Qed.

Lemma print_result_runs (h : list string -> Handler string) :
  In h [add_contact; change_contact; show_phone] ->
  forall args contacts, next (print_result (h args) contacts) = Running.
Proof.
  intros Hin args contacts. unfold print_result.
  destruct (decorated_returns h Hin args contacts) as [s Hs].
  destruct (h args contacts) as [[s'|e] c']; [reflexivity|discriminate Hs].
Qed.

(** C2: when the handler raises one of the three caught exceptions the
    decorated handler returns the universal message, whichever of the
    three it was; when the handler returns a string the decorated handler
    returns the same string; in both cases the store is the one the
    handler left.  The decorated [add_contact], [change_contact] and
    [show_phone] return a string on every argument list and store, and
    no iteration of the loop ends with an exception. *)
Theorem input_error_normalizes :
  (forall (A : Type) (func : A -> Handler string) (a : A)
          (contacts contacts' : Contacts) (e : exception),
     func a contacts = (Raise e, contacts') ->
     In e [ValueError; IndexError; KeyError] ->
     input_error func a contacts = (Return UNIVERSAL_ERROR_MESSAGE, contacts'))
  /\ (forall (A : Type) (func : A -> Handler string) (a : A)
             (contacts contacts' : Contacts) (s : string),
     func a contacts = (Return s, contacts') ->
     input_error func a contacts = (Return s, contacts'))
  /\ (forall h, In h [add_contact; change_contact; show_phone] ->
      forall args contacts, exists s, fst (h args contacts) = Return s)
  /\ (forall contacts line e, next (iteration contacts line) <> Crashed e).
Proof.
  split; [|split; [|split]].
  - intros A func a contacts contacts' e Hf He. unfold input_error.
    rewrite Hf. destruct He as [<-|[<-|[<-|[]]]]; reflexivity.
  - intros A func a contacts contacts' s Hf. unfold input_error.
    now rewrite Hf.
  - exact decorated_returns.
  - intros contacts line e. unfold iteration, iteration_with.
    destruct (negb (truthy (strip line))); [discriminate|].
    destruct (parse_input (strip line)) as [command args].
    destruct (is_exit command); [discriminate|].
    destruct (command =? "hello"); [discriminate|].
    destruct (command =? "add");
      [rewrite print_result_runs by (simpl; tauto); discriminate|].
    destruct (command =? "change");
      [rewrite print_result_runs by (simpl; tauto); discriminate|].
    destruct (command =? "phone");
      [rewrite print_result_runs by (simpl; tauto); discriminate|].
    destruct (command =? "all"); discriminate.
Qed.

(** A use of [input_error_normalizes]: the undecorated phone handler
    raises [KeyError] on an empty store and the decorated one answers
    with the universal message. *)
Lemma input_error_normalizes_witness :
  input_error show_phone_func ["Ann"] [] =
  (Return UNIVERSAL_ERROR_MESSAGE, []).
Proof.
  apply (proj1 input_error_normalizes _ show_phone_func ["Ann"] [] [] KeyError).
  - reflexivity.
  - simpl. tauto.
Defined.

(** C3, as stated, fails for phone with too many arguments: with Ann
    stored under 999, phone called with the two arguments Ann and extra
    returns 999, which is not the universal message. *)
Lemma phone_ignores_extra_arguments :
  length ["Ann"; "extra"] <> 1
  /\ show_phone ["Ann"; "extra"] [("Ann", "999")]
     = (Return "999", [("Ann", "999")])
  /\ fst (show_phone ["Ann"; "extra"] [("Ann", "999")])
     <> Return UNIVERSAL_ERROR_MESSAGE.
Proof.
  split; [discriminate|]. split; [reflexivity|].
  intros H. vm_compute in H. discriminate H.
Qed.

(** C3, amended: add and change called with an argument count other than
    two, too few or too many, raise [ValueError] before touching the
    store and are surfaced as the universal message; phone called with no
    argument raises [IndexError] and is surfaced as the universal
    message; phone called with one argument or more looks up the first
    and ignores the others. *)
Theorem arity_mismatch_normalized :
  (forall args contacts, length args <> 2 ->
     add_contact_func args contacts = (Raise ValueError, contacts)
     /\ add_contact args contacts = (Return UNIVERSAL_ERROR_MESSAGE, contacts))
  /\ (forall args contacts, length args <> 2 ->
     change_contact_func args contacts = (Raise ValueError, contacts)
     /\ change_contact args contacts = (Return UNIVERSAL_ERROR_MESSAGE, contacts))
  /\ (forall contacts,
     show_phone_func [] contacts = (Raise IndexError, contacts)
     /\ show_phone [] contacts = (Return UNIVERSAL_ERROR_MESSAGE, contacts))
  /\ (forall name extra contacts,
     show_phone (name :: extra) contacts = show_phone [name] contacts)
  /\ (forall name extra contacts phone,
     dict_get name contacts = Some phone ->
     show_phone (name :: extra) contacts = (Return phone, contacts)).
Proof.
  split; [|split; [|split; [|split]]].
  - intros args contacts Hlen.
    rewrite add_contact_eq, add_contact_func_eq.
    destruct args as [|name [|phone [|x l]]]; try (split; reflexivity).
    now elim Hlen.
  - intros args contacts Hlen.
    rewrite change_contact_eq, change_contact_func_eq.
    destruct args as [|name [|phone [|x l]]]; try (split; reflexivity).
    now elim Hlen.
  - intros contacts. split; reflexivity.
  - intros name extra contacts. now rewrite !show_phone_eq.
  - intros name extra contacts phone H. now rewrite show_phone_eq, H.
Qed.

(** A use of [arity_mismatch_normalized]: add with three arguments. *)
Lemma arity_mismatch_normalized_witness :
  add_contact ["Ann"; "999"; "extra"] [] = (Return UNIVERSAL_ERROR_MESSAGE, []).
Proof.
  apply (proj1 arity_mismatch_normalized ["Ann"; "999"; "extra"] []).
  simpl. discriminate.
Defined.

(** C9: a decorated handler that returns the universal message leaves
    the store as it found it, and an undecorated handler that raises has
    not yet written to the store. *)
Theorem failed_handler_leaves_store :
  (forall func,
     In func [add_contact_func; change_contact_func; show_phone_func] ->
     forall args contacts e contacts',
       func args contacts = (Raise e, contacts') -> contacts' = contacts)
  /\ (forall h, In h [add_contact; change_contact; show_phone] ->
      forall args contacts,
        fst (h args contacts) = Return UNIVERSAL_ERROR_MESSAGE ->
        snd (h args contacts) = contacts).
Proof.
  split.
  - intros func [<-|[<-|[<-|[]]]] args contacts e contacts'.
    + rewrite add_contact_func_eq.
      destruct args as [|name [|phone [|x l]]];
        try destruct (dict_contains name contacts); congruence.
    + rewrite change_contact_func_eq.
      destruct args as [|name [|phone [|x l]]];
        try destruct (dict_contains name contacts); congruence.
    + rewrite show_phone_func_eq.
      destruct args as [|name l];
        try destruct (dict_get name contacts); congruence.
  - intros h [<-|[<-|[<-|[]]]] args contacts.
    + rewrite add_contact_eq.
      destruct args as [|name [|phone [|x l]]]; try reflexivity.
      destruct (dict_contains name contacts); [reflexivity|].
      cbn [fst]. intros H. discriminate H.
    + rewrite change_contact_eq.
      destruct args as [|name [|phone [|x l]]]; try reflexivity.
      destruct (dict_contains name contacts); [|reflexivity].
      cbn [fst]. intros H. discriminate H.
    + rewrite show_phone_eq.
      destruct args as [|name l]; [reflexivity|].
      destruct (dict_get name contacts); reflexivity.
Qed.

(** A use of [failed_handler_leaves_store]: adding Ann a second time. *)
Lemma failed_handler_leaves_store_witness :
  snd (add_contact ["Ann"; "111"] [("Ann", "999")]) = [("Ann", "999")].
Proof.
  apply (proj2 failed_handler_leaves_store add_contact).
  - simpl. tauto.
  - reflexivity.
Defined.

End HandlerProperties.

(** ** Listing the store *)

Section ShowAll.

Lemma collect_lines (contacts : Contacts) (acc : list string) :
  fold_left (fun acc entry => (acc ++ [contact_line entry])%list) contacts acc
  = (acc ++ map contact_line contacts)%list.
Proof.
  revert acc; induction contacts as [|entry l IH]; intros acc; simpl.
  - now rewrite app_nil_r.
  - now rewrite IH, <- app_assoc.
Qed.

Lemma join_snoc (sep x : string) (l : list string) :
  l <> [] -> join sep (l ++ [x])%list = join sep l ++ sep ++ x.
Proof.
  induction l as [|w l IH]; intros Hne; [now elim Hne|].
  destruct l as [|w' l]; [reflexivity|].
  change (join sep ((w :: w' :: l) ++ [x]))
    with (w ++ sep ++ join sep ((w' :: l) ++ [x])).
  rewrite IH by discriminate.
  change (join sep (w :: w' :: l)) with (w ++ sep ++ join sep (w' :: l)).
  now rewrite !append_assoc.
Qed.

Lemma dict_set_fresh (name phone : string) (contacts : Contacts) :
  dict_contains name contacts = false ->
  dict_set name phone contacts = (contacts ++ [(name, phone)])%list.
Proof.
  induction contacts as [|[k v] l IH]; simpl; [reflexivity|].
  destruct (k =? name); simpl; [discriminate|].
  intros H. now rewrite IH.
Qed.

Lemma dict_set_keys (name phone : string) (contacts : Contacts) :
  dict_contains name contacts = true ->
  map fst (dict_set name phone contacts) = map fst contacts.
Proof.
  induction contacts as [|[k v] l IH]; simpl; [discriminate|].
  destruct (k =? name); simpl; [reflexivity|].
  intros H. now rewrite IH.
Qed.

Lemma show_all_lines (contacts : Contacts) :
  contacts <> [] -> show_all contacts = join NL (map contact_line contacts).
Proof.
  intros Hne. unfold show_all. rewrite collect_lines.
  destruct contacts; [now elim Hne | reflexivity].
Qed.

(** C5: [show_all] is a total function of the store; on the empty store
    it is the text No contacts saved, on any other store it is the lines
    name, colon, space, phone of the entries in the order of the store,
    joined by newlines; a name that is new goes last in the store and so
    last in the listing, a changed name keeps its place; after add Ann
    999 and add Bob 111 the command all prints the line of Ann, a
    newline, the line of Bob. *)
Theorem show_all_insertion_order :
  show_all [] = "No contacts saved."
  /\ (forall contacts, contacts <> [] ->
        show_all contacts = join NL (map contact_line contacts))
  /\ (forall name phone contacts, dict_contains name contacts = false ->
        add_contact [name; phone] contacts
        = (Return "Contact added.", (contacts ++ [(name, phone)])%list))
  /\ (forall name phone contacts, contacts <> [] ->
        show_all (contacts ++ [(name, phone)])%list
        = show_all contacts ++ NL ++ name ++ ": " ++ phone)
  /\ (forall name phone contacts, dict_contains name contacts = true ->
        map fst (snd (change_contact [name; phone] contacts))
        = map fst contacts)
  /\ show_all [("Ann", "999"); ("Bob", "111")] = "Ann: 999" ++ NL ++ "Bob: 111"
  /\ main_loop [] ["add Ann 999"; "add Bob 111"; "all"]
     = (["Contact added."; "Contact added.";
         "Ann: 999" ++ NL ++ "Bob: 111"; NL ++ "Good bye!"], Terminated).
Proof.
  split; [reflexivity|]. split; [exact show_all_lines|].
  split; [|split; [|split; [|split; reflexivity]]].
  - intros name phone contacts H.
    now rewrite add_contact_eq, H, dict_set_fresh.
  - intros name phone contacts Hne.
    rewrite !show_all_lines by (try assumption; now destruct contacts).
    rewrite map_app. cbn [map contact_line].
    apply join_snoc. now destruct contacts.
  - intros name phone contacts H.
    rewrite change_contact_eq, H. cbn [snd]. now apply dict_set_keys.
Qed.

(** A use of [show_all_insertion_order]: the listing of a store of one
    entry, and Bob added to a store that holds Ann. *)
Lemma show_all_insertion_order_witness :
  show_all [("Ann", "999")] = "Ann: 999"
  /\ add_contact ["Bob"; "111"] [("Ann", "999")]
     = (Return "Contact added.", [("Ann", "999"); ("Bob", "111")]).
Proof.
  split.
  - apply (proj1 (proj2 show_all_insertion_order) [("Ann", "999")]).
    discriminate.
  - apply (proj1 (proj2 (proj2 show_all_insertion_order))
             "Bob" "111" [("Ann", "999")]).
    reflexivity.
Defined.

End ShowAll.

(** ** The dispatcher *)

Section Dispatcher.

(** C8: a line that is dispatched and whose command is none of add,
    change, phone, all, hello, exit, close prints Invalid command, leaves
    the store as it was and lets the loop run on, whatever the three
    decorated handlers are: none of them is called.  So it is with the
    handlers of the module, and with the line foo bar. *)
Theorem unknown_command_invalid
    (h_add h_change h_phone : list string -> Handler string)
    (contacts : Contacts) (line : string) :
  truthy (strip line) = true ->
  ~ In (fst (parse_input (strip line))) recognized ->
  iteration_with h_add h_change h_phone contacts line
  = {| printed := ["Invalid command."]; store := contacts; next := Running |}
  /\ iteration contacts line
  = {| printed := ["Invalid command."]; store := contacts; next := Running |}.
Proof.
  intros Ht Hnot. unfold iteration, iteration_with. rewrite Ht. cbn [negb].
  destruct (parse_input (strip line)) as [command args]. cbn [fst] in Hnot.
  assert (Hne : forall verb, In verb recognized -> (command =? verb) = false).
  { intros verb Hin. apply String.eqb_neq. intros ->. now apply Hnot. }
  unfold is_exit. cbn [existsb].
  rewrite !Hne by (simpl; tauto). split; reflexivity.
Qed.

(** A use of [unknown_command_invalid] on the line foo bar. *)
Lemma unknown_command_invalid_witness :
  iteration [("Ann", "999")] "foo bar"
  = {| printed := ["Invalid command."]; store := [("Ann", "999")];
       next := Running |}.
Proof.
  apply (unknown_command_invalid add_contact change_contact show_phone
           [("Ann", "999")] "foo bar").
  - reflexivity.
  - simpl. intros [H|[H|[H|[H|[H|[H|[H|[]]]]]]]]; discriminate H.
Defined.

(** C10: a line whose first word is all, hello, exit or close in any
    case is answered the same way whatever words follow it: all prints
    the listing of the store, hello prints the greeting, exit and close
    print the farewell and stop the loop; the store is untouched.  So it
    is with all extra words and with exit now. *)
Theorem extra_arguments_ignored
    (contacts : Contacts) (line w : string) (rest : list string) :
  split line = w :: rest ->
  (lower w = "all" ->
     iteration contacts line
     = {| printed := [show_all contacts]; store := contacts; next := Running |})
  /\ (lower w = "hello" ->
     iteration contacts line
     = {| printed := ["How can I help you?"]; store := contacts;
          next := Running |})
  /\ (lower w = "exit" \/ lower w = "close" ->
     iteration contacts line
     = {| printed := ["Good bye!"]; store := contacts; next := Terminated |}).
Proof.
  intros H. unfold iteration, iteration_with.
  rewrite truthy_strip by (rewrite H; discriminate). cbn [negb].
  rewrite parse_input_words, split_strip, H.
  split; [|split].
  - intros Hw. destruct rest; now rewrite Hw.
  - intros Hw. destruct rest; now rewrite Hw.
  - intros [Hw|Hw]; destruct rest; now rewrite Hw.
Qed.

(** A use of [extra_arguments_ignored]: all extra words lists the store
    and exit now stops the loop. *)
Lemma extra_arguments_ignored_witness :
  iteration [("Ann", "999"); ("Bob", "111")] "all extra words"
  = {| printed := ["Ann: 999" ++ NL ++ "Bob: 111"];
       store := [("Ann", "999"); ("Bob", "111")]; next := Running |}
  /\ iteration [("Ann", "999")] "exit now"
  = {| printed := ["Good bye!"]; store := [("Ann", "999")];
       next := Terminated |}.
Proof.
  split.
  - apply (proj1 (extra_arguments_ignored [("Ann", "999"); ("Bob", "111")]
                    "all extra words" "all" ["extra"; "words"] eq_refl)).
    reflexivity.
  - apply (proj2 (proj2 (extra_arguments_ignored [("Ann", "999")]
                    "exit now" "exit" ["now"] eq_refl))).
    left. reflexivity.
Defined.

End Dispatcher.

(** ** More on the store and the handlers *)

Section StoreFacts.

Lemma dict_contains_get (name : string) (contacts : Contacts) :
  dict_contains name contacts = false <-> dict_get name contacts = None.
Proof.
  induction contacts as [|[k v] l IH]; simpl; [tauto|].
  destruct (k =? name); simpl; [split; discriminate | exact IH].
Qed.

Lemma dict_get_set_same (name phone : string) (contacts : Contacts) :
  dict_get name (dict_set name phone contacts) = Some phone.
Proof.
  induction contacts as [|[k v] l IH]; simpl.
  - now rewrite String.eqb_refl.
  - destruct (k =? name) eqn:E; simpl; now rewrite E.
Qed.

Lemma dict_get_set_other (other name phone : string) (contacts : Contacts) :
  other <> name ->
  dict_get other (dict_set name phone contacts) = dict_get other contacts.
Proof.
  intros Hne. induction contacts as [|[k v] l IH]; simpl.
  - apply not_eq_sym, String.eqb_neq in Hne. now rewrite Hne.
  - destruct (k =? name) eqn:E; simpl.
    + apply String.eqb_eq in E. subst k.
      apply not_eq_sym, String.eqb_neq in Hne. now rewrite Hne.
    + now rewrite IH.
Qed.

Lemma dict_contains_set (x name phone : string) (contacts : Contacts) :
  dict_contains x (dict_set name phone contacts)
  = (name =? x) || dict_contains x contacts.
Proof.
  induction contacts as [|[k v] l IH]; simpl.
  - reflexivity.
  - destruct (k =? name) eqn:E; simpl.
    + apply String.eqb_eq in E. subst k. now destruct (name =? x).
    + rewrite IH. now destruct (k =? x), (name =? x).
Qed.

Lemma dict_set_length (name phone : string) (contacts : Contacts) :
  length (dict_set name phone contacts)
  = if dict_contains name contacts then length contacts
    else S (length contacts).
Proof.
  induction contacts as [|[k v] l IH]; simpl; [reflexivity|].
  destruct (k =? name); simpl; [reflexivity|].
  rewrite IH. now destruct (dict_contains name l).
Qed.

Lemma dict_contains_keys (name : string) (contacts : Contacts) :
  dict_contains name contacts = true <-> In name (map fst contacts).
Proof.
  induction contacts as [|[k v] l IH]; simpl; [split; [discriminate|tauto]|].
  destruct (k =? name) eqn:E; simpl.
  - apply String.eqb_eq in E. tauto.
  - apply String.eqb_neq in E. rewrite IH. tauto.
Qed.

Lemma dict_set_nodup (name phone : string) (contacts : Contacts) :
  NoDup (map fst contacts) -> NoDup (map fst (dict_set name phone contacts)).
Proof.
  destruct (dict_contains name contacts) eqn:E.
  - now rewrite dict_set_keys.
  - rewrite dict_set_fresh, map_app by assumption. intros Hnd. simpl.
    apply NoDup_app; [assumption | repeat constructor; intros [] | ].
    intros x Hx [<-|[]].
    apply dict_contains_keys in Hx. congruence.
Qed.

(** X1: a name that is not in the store can be added, and phone then
    answers with the phone just added while every other name is answered
    as before. *)
Theorem add_then_phone (name phone : string) (contacts : Contacts) :
  dict_contains name contacts = false ->
  exists contacts',
    add_contact [name; phone] contacts = (Return "Contact added.", contacts')
    /\ show_phone [name] contacts' = (Return phone, contacts')
    /\ (forall other, other <> name ->
          fst (show_phone [other] contacts') = fst (show_phone [other] contacts)).
Proof.
  intros H. exists (dict_set name phone contacts).
  rewrite add_contact_eq, H. split; [reflexivity|]. split.
  - now rewrite show_phone_eq, dict_get_set_same.
  - intros other Hne. rewrite !show_phone_eq, dict_get_set_other by assumption.
    now destruct (dict_get other contacts).
Qed.

(** A use of [add_then_phone]: Bob added next to Ann. *)
Lemma add_then_phone_witness :
  exists contacts',
    add_contact ["Bob"; "111"] [("Ann", "999")]
    = (Return "Contact added.", contacts')
    /\ show_phone ["Bob"] contacts' = (Return "111", contacts')
    /\ (forall other, other <> "Bob" ->
          fst (show_phone [other] contacts')
          = fst (show_phone [other] [("Ann", "999")])).
Proof. apply (add_then_phone "Bob" "111" [("Ann", "999")]). reflexivity. Defined.

(** X2: a name that is in the store can be changed; phone then answers
    with the new phone, every other name is answered as before, and the
    names of the store and their order are the same. *)
Theorem change_then_phone (name new_phone : string) (contacts : Contacts) :
  dict_contains name contacts = true ->
  exists contacts',
    change_contact [name; new_phone] contacts
    = (Return "Contact updated.", contacts')
    /\ show_phone [name] contacts' = (Return new_phone, contacts')
    /\ (forall other, other <> name ->
          fst (show_phone [other] contacts') = fst (show_phone [other] contacts))
    /\ map fst contacts' = map fst contacts.
Proof.
  intros H. exists (dict_set name new_phone contacts).
  rewrite change_contact_eq, H. split; [reflexivity|]. split; [|split].
  - now rewrite show_phone_eq, dict_get_set_same.
  - intros other Hne. rewrite !show_phone_eq, dict_get_set_other by assumption.
    now destruct (dict_get other contacts).
  - now apply dict_set_keys.
Qed.

(** A use of [change_then_phone]: the phone of Ann replaced. *)
Lemma change_then_phone_witness :
  exists contacts',
    change_contact ["Ann"; "555"] [("Ann", "999"); ("Bob", "111")]
    = (Return "Contact updated.", contacts')
    /\ show_phone ["Ann"] contacts' = (Return "555", contacts')
    /\ (forall other, other <> "Ann" ->
          fst (show_phone [other] contacts')
          = fst (show_phone [other] [("Ann", "999"); ("Bob", "111")]))
    /\ map fst contacts' = map fst [("Ann", "999"); ("Bob", "111")].
Proof.
  apply (change_then_phone "Ann" "555" [("Ann", "999"); ("Bob", "111")]).
  reflexivity.
Defined.

(** X3: add answers Contact added exactly when it is given two arguments
    and the first is not yet a name of the store; change answers Contact
    updated exactly when it is given two arguments and the first is a
    name of the store.  In every other case the answer is the universal
    message. *)
Theorem add_change_success (args : list string) (contacts : Contacts) :
  (fst (add_contact args contacts) = Return "Contact added." <->
   exists name phone, args = [name; phone] /\ dict_contains name contacts = false)
  /\ (fst (add_contact args contacts) <> Return "Contact added." ->
      add_contact args contacts = (Return UNIVERSAL_ERROR_MESSAGE, contacts))
  /\ (fst (change_contact args contacts) = Return "Contact updated." <->
   exists name phone, args = [name; phone] /\ dict_contains name contacts = true)
  /\ (fst (change_contact args contacts) <> Return "Contact updated." ->
      change_contact args contacts = (Return UNIVERSAL_ERROR_MESSAGE, contacts)).
Proof.
  rewrite add_contact_eq, change_contact_eq.
  destruct args as [|name [|phone [|x l]]]; cbn [fst];
    try (repeat split; try reflexivity;
         [intros H; discriminate H | intros (n & p & H & _); discriminate H
         |intros H; discriminate H | intros (n & p & H & _); discriminate H]).
  destruct (dict_contains name contacts) eqn:E; cbn [fst]; repeat split;
    try reflexivity; try (intros H; discriminate H);
    try (intros H; now elim H);
    try (intros _; exists name, phone; now split);
    intros (n & p & H & H'); injection H as <- <-; congruence.
Qed.

End StoreFacts.

(** ** More on the loop *)

Section LoopFacts.

Lemma print_result_decorated (h : list string -> Handler string) :
  In h [add_contact; change_contact; show_phone] ->
  forall args contacts, exists s,
    print_result (h args) contacts
    = {| printed := [s]; store := snd (h args contacts); next := Running |}.
Proof.
  intros Hin args contacts. unfold print_result.
  destruct (decorated_returns h Hin args contacts) as [s Hs].
  destruct (h args contacts) as [[s'|e] c']; [|discriminate Hs].
  now exists s'.
Qed.

Lemma decorated_store (h : list string -> Handler string) :
  In h [add_contact; change_contact; show_phone] ->
  forall args contacts,
    snd (h args contacts) = contacts
    \/ exists name phone, snd (h args contacts) = dict_set name phone contacts.
Proof.
  intros [<-|[<-|[<-|[]]]] args contacts.
  - rewrite add_contact_eq.
    destruct args as [|name [|phone [|x l]]]; try (now left).
    destruct (dict_contains name contacts); [now left|].
    right. now exists name, phone.
  - rewrite change_contact_eq.
    destruct args as [|name [|phone [|x l]]]; try (now left).
    destruct (dict_contains name contacts); [|now left].
    right. now exists name, phone.
  - rewrite show_phone_eq. left.
    destruct args as [|name l]; [reflexivity|].
    now destruct (dict_get name contacts).
Qed.

(** The three shapes an iteration can take. *)
Lemma iteration_shape (contacts : Contacts) (line : string) :
  (truthy (strip line) = false
   /\ iteration contacts line
      = {| printed := []; store := contacts; next := Running |})
  \/ (truthy (strip line) = true
      /\ iteration contacts line
         = {| printed := ["Good bye!"]; store := contacts; next := Terminated |})
  \/ (truthy (strip line) = true
      /\ exists s contacts',
         iteration contacts line
         = {| printed := [s]; store := contacts'; next := Running |}
         /\ (contacts' = contacts
             \/ exists name phone, contacts' = dict_set name phone contacts)).
Proof.
  unfold iteration, iteration_with.
  destruct (truthy (strip line)); cbn [negb]; [right | now left].
  destruct (parse_input (strip line)) as [command args].
  destruct (is_exit command); [now left | right; split; [reflexivity|]].
  destruct (command =? "hello"); [eexists _, _; split; [reflexivity | now left]|].
  destruct (command =? "add").
  { destruct (print_result_decorated add_contact) with (args := args)
      (contacts := contacts) as [s ->]; [simpl; tauto|].
    eexists _, _; split; [reflexivity|].
    apply decorated_store. simpl; tauto. }
  destruct (command =? "change").
  { destruct (print_result_decorated change_contact) with (args := args)
      (contacts := contacts) as [s ->]; [simpl; tauto|].
    eexists _, _; split; [reflexivity|].
    apply decorated_store. simpl; tauto. }
  destruct (command =? "phone").
  { destruct (print_result_decorated show_phone) with (args := args)
      (contacts := contacts) as [s ->]; [simpl; tauto|].
    eexists _, _; split; [reflexivity|].
    apply decorated_store. simpl; tauto. }
  destruct (command =? "all"); eexists _, _; split; try reflexivity; now left.
Qed.

Lemma iteration_store (contacts : Contacts) (line : string) :
  store (iteration contacts line) = contacts
  \/ exists name phone,
       store (iteration contacts line) = dict_set name phone contacts.
Proof.
  destruct (iteration_shape contacts line)
    as [[_ ->]|[[_ ->]|[_ (s & c' & -> & H)]]]; cbn [store]; auto.
Qed.

Lemma split_from_nil (word s : string) :
  split_from word s = [] -> truthy word = false /\ lstrip s = "".
Proof.
  revert word; induction s as [|c s IH]; intros word; simpl.
  - destruct (truthy word); [discriminate | now split].
  - destruct (str_isspace c).
    + destruct (truthy word); [discriminate|].
      intros H. split; [reflexivity|]. now apply IH in H.
    + intros H. apply IH in H as [H _].
      unfold push_char in H. rewrite truthy_append in H.
      now rewrite orb_true_r in H.
Qed.

Lemma strip_blank (line : string) : split line = [] -> strip line = "".
Proof.
  intros H. apply split_from_nil in H as [_ H]. unfold strip. now rewrite H.
Qed.

Lemma iteration_exit (contacts : Contacts) (line w : string) (rest : list string) :
  split line = w :: rest ->
  lower w = "exit" \/ lower w = "close" ->
  iteration contacts line
  = {| printed := ["Good bye!"]; store := contacts; next := Terminated |}.
Proof.
  intros H Hcmd. unfold iteration, iteration_with.
  rewrite truthy_strip by (rewrite H; discriminate). cbn [negb].
  rewrite parse_input_words, split_strip, H.
  destruct Hcmd as [Hw|Hw]; destruct rest; now rewrite Hw.
Qed.

(** X4: no iteration removes a contact: every name of the store is still
    a name of the store afterwards, at most one name is added, and names
    that were distinct stay distinct. *)
Theorem contacts_never_removed (contacts : Contacts) (line : string) :
  (forall name, dict_contains name contacts = true ->
     dict_contains name (store (iteration contacts line)) = true)
  /\ length contacts <= length (store (iteration contacts line))
     <= S (length contacts)
  /\ (NoDup (map fst contacts) ->
      NoDup (map fst (store (iteration contacts line)))).
Proof.
  destruct (iteration_store contacts line) as [->|(name & phone & ->)].
  - repeat split; auto.
  - split; [|split].
    + intros x Hx. rewrite dict_contains_set, Hx. apply orb_true_r.
    + rewrite dict_set_length. destruct (dict_contains name contacts); lia.
    + apply dict_set_nodup.
Qed.

(** A use of [contacts_never_removed]: Ann survives a change of Bob. *)
Lemma contacts_never_removed_witness :
  dict_contains "Ann"
    (store (iteration [("Ann", "999"); ("Bob", "111")] "change Bob 5")) = true.
Proof.
  apply (proj1 (contacts_never_removed
                  [("Ann", "999"); ("Bob", "111")] "change Bob 5") "Ann").
  reflexivity.
Defined.

(** X5: only add and change write to the store: an iteration on a line
    whose command is neither of them leaves the store as it was. *)
Theorem only_add_change_write (contacts : Contacts) (line : string) :
  fst (parse_input (strip line)) <> "add" ->
  fst (parse_input (strip line)) <> "change" ->
  store (iteration contacts line) = contacts.
Proof.
  intros Hadd Hchange. unfold iteration, iteration_with.
  destruct (negb (truthy (strip line))); [reflexivity|].
  destruct (parse_input (strip line)) as [command args]. cbn [fst] in *.
  apply String.eqb_neq in Hadd, Hchange. rewrite Hadd, Hchange.
  destruct (is_exit command); [reflexivity|].
  destruct (command =? "hello"); [reflexivity|].
  destruct (command =? "phone").
  - destruct (print_result_decorated show_phone) with (args := args)
      (contacts := contacts) as [s ->]; [simpl; tauto|].
    cbn [store]. rewrite show_phone_eq.
    destruct args as [|name l]; [reflexivity|].
    now destruct (dict_get name contacts).
  - now destruct (command =? "all").
Qed.

(** A use of [only_add_change_write] on the line phone Ann. *)
Lemma only_add_change_write_witness :
  store (iteration [("Ann", "999")] "phone Ann") = [("Ann", "999")].
Proof.
  apply (only_add_change_write [("Ann", "999")] "phone Ann");
    intros H; vm_compute in H; discriminate H.
Defined.

(** X6: a line without a word prints nothing and changes nothing; a
    line with a word prints exactly one string. *)
Theorem one_print_per_line (contacts : Contacts) (line : string) :
  (split line = [] ->
     iteration contacts line
     = {| printed := []; store := contacts; next := Running |})
  /\ (split line <> [] -> length (printed (iteration contacts line)) = 1).
Proof.
  split.
  - intros H. unfold iteration, iteration_with. now rewrite strip_blank.
  - intros H. apply truthy_strip in H.
    destruct (iteration_shape contacts line)
      as [[Hb _]|[[_ ->]|[_ (s & c' & -> & _)]]]; [congruence| |]; reflexivity.
Qed.

(** A use of [one_print_per_line]: a line of blanks and a line with an
    unknown word. *)
Lemma one_print_per_line_witness :
  iteration [("Ann", "999")] "   "
  = {| printed := []; store := [("Ann", "999")]; next := Running |}
  /\ length (printed (iteration [("Ann", "999")] "foo")) = 1.
Proof.
  split.
  - apply (proj1 (one_print_per_line [("Ann", "999")] "   ")). reflexivity.
  - apply (proj2 (one_print_per_line [("Ann", "999")] "foo")). discriminate.
Defined.

Lemma main_loop_farewell (lines : list string) :
  forall contacts,
  snd (main_loop contacts lines) = Terminated
  /\ exists out bye,
       fst (main_loop contacts lines) = (out ++ [bye])%list
       /\ (bye = "Good bye!" \/ bye = NL ++ "Good bye!")
       /\ length out <= length lines.
Proof.
  induction lines as [|line rest IH]; intros contacts.
  - split; [reflexivity|]. exists [], (NL ++ "Good bye!").
    split; [reflexivity|]. split; [now right | simpl; lia].
  - cbn [main_loop].
    destruct (iteration_shape contacts line)
      as [[_ ->]|[[_ ->]|[_ (s & c' & -> & _)]]]; cbn [next store printed].
    + destruct (IH contacts) as [Hst (out & bye & Hout & Hbye & Hlen)].
      destruct (main_loop contacts rest) as [o st]. cbn [fst snd] in *.
      split; [assumption|]. exists out, bye. subst o.
      split; [reflexivity|]. split; [assumption | simpl; lia].
    + split; [reflexivity|]. exists [], "Good bye!".
      split; [reflexivity|]. split; [now left | simpl; lia].
    + destruct (IH c') as [Hst (out & bye & Hout & Hbye & Hlen)].
      destruct (main_loop c' rest) as [o st]. cbn [fst snd] in *.
      split; [assumption|]. exists (s :: out), bye. subst o.
      split; [reflexivity|]. split; [assumption | simpl; lia].
Qed.

(** X7: every session stops in the terminated state and never with an
    exception; what it prints starts with the welcome, ends with a
    farewell (the one of exit and close, or the one of the end of input,
    which starts with a newline), and holds at most one string per line
    in between. *)
Theorem session_ends_with_farewell (lines : list string) :
  snd (main lines) = Terminated
  /\ exists out bye,
       fst (main lines)
       = ("Welcome to the assistant bot!" :: out ++ [bye])%list
       /\ (bye = "Good bye!" \/ bye = NL ++ "Good bye!")
       /\ length out <= length lines.
Proof.
  unfold main.
  destruct (main_loop_farewell lines []) as [Hst (out & bye & Hout & Hbye & Hlen)].
  destruct (main_loop [] lines) as [o st]. cbn [fst snd] in *.
  split; [assumption|]. exists out, bye. subst o. auto.
Qed.

Lemma main_loop_after_exit (l1 l2 : list string) (e w : string) (rest : list string) :
  split e = w :: rest ->
  lower w = "exit" \/ lower w = "close" ->
  forall contacts,
    main_loop contacts (l1 ++ e :: l2) = main_loop contacts (l1 ++ [e]).
Proof.
  intros He Hw. induction l1 as [|line l1 IH]; intros contacts.
  - cbn [app main_loop]. now rewrite (iteration_exit contacts e w rest).
  - cbn [app main_loop].
    destruct (next (iteration contacts line)); try reflexivity.
    now rewrite IH.
Qed.

(** X8: nothing is read after exit or close: the lines that follow a
    line whose first word is exit or close in any case do not change
    what the session prints nor how it ends. *)
Theorem nothing_after_exit
    (l1 l2 : list string) (e w : string) (rest : list string) :
  split e = w :: rest ->
  lower w = "exit" \/ lower w = "close" ->
  main (l1 ++ e :: l2) = main (l1 ++ [e]).
Proof.
  intros He Hw. unfold main.
  now rewrite (main_loop_after_exit l1 l2 e w rest He Hw).
Qed.

(** A use of [nothing_after_exit]: an add after Close is not run. *)
Lemma nothing_after_exit_witness :
  main (["add Ann 999"] ++ "Close" :: ["add Bob 111"; "all"])
  = main (["add Ann 999"] ++ ["Close"]).
Proof.
  apply (nothing_after_exit ["add Ann 999"] ["add Bob 111"; "all"]
           "Close" "Close" []).
  - reflexivity.
  - right. reflexivity.
Defined.

End LoopFacts.

(** ** More on the tokenizer *)

Section TokenizerFacts.

Lemma split_from_chars (p : ascii -> bool) (word s : string) :
  all_chars p word = true -> all_chars p s = true ->
  Forall (fun w => all_chars p w = true) (split_from word s).
Proof.
  revert word; induction s as [|c s IH]; intros word Hword Hs; simpl.
  - destruct (truthy word); repeat constructor; assumption.
  - simpl in Hs. apply andb_true_iff in Hs as [Hc Hs].
    destruct (str_isspace c).
    + destruct (truthy word); [constructor; [assumption|]|]; now apply IH.
    + apply IH; [|assumption]. unfold push_char.
      rewrite all_chars_append, Hword. simpl. now rewrite Hc.
Qed.

Lemma nonspace_not_blank (c : ascii) :
  nonspace c = true -> Ascii.eqb c " " = false.
Proof.
  destruct (Ascii.eqb c " ") eqn:E; [|reflexivity].
  apply Ascii.eqb_eq in E. subst c. intros H. discriminate H.
Qed.

Lemma word_without_quote_bare (w : string) :
  is_word w = true -> all_chars not_quote w = true -> bare_arg w = true.
Proof.
  unfold is_word, bare_arg. rewrite !andb_true_iff. intros [Ht Hw] Hq.
  split; [assumption|].
  generalize (all_chars_both _ _ _ Hw Hq). apply all_chars_impl.
  intros c Hc. apply andb_true_iff in Hc as [Hn Hnq].
  unfold bare_char. unfold not_quote in Hnq.
  now rewrite (nonspace_not_blank c Hn), Hnq.
Qed.

(** X9: on a line without any quote character the tokenizer is the
    split on whitespace: the command is the first word in lower case and
    the arguments are the other words, as they stand and in order. *)
Theorem unquoted_line_is_split (line : string) :
  all_chars not_quote line = true ->
  parse_input line =
  match split line with
  | [] => ("", [])
  | w :: ws => (lower w, ws)
  end.
Proof.
  intros Hq. rewrite parse_input_words.
  pose proof (split_words line) as Hwords.
  pose proof (split_from_chars not_quote "" line eq_refl Hq) as Hnq.
  fold (split line) in Hnq.
  destruct (split line) as [|w [|w' ws]]; try reflexivity.
  f_equal. apply parse_args_join_bare.
  inversion Hwords as [|? ? _ Hws]; inversion Hnq as [|? ? _ Hqs]; subst.
  rewrite Forall_forall in *. intros x Hx.
  apply word_without_quote_bare; auto.
Qed.

(** A use of [unquoted_line_is_split] on a line with runs of blanks. *)
Lemma unquoted_line_is_split_witness :
  parse_input "  Change   Ann   555-01 " = ("change", ["Ann"; "555-01"]).
Proof.
  apply (unquoted_line_is_split "  Change   Ann   555-01 "). reflexivity.
Defined.

Lemma scan_inside_quotes (t : string) (q : ascii) (a : list string) (cur : string) :
  all_chars (fun c => negb (Ascii.eqb c q)) t = true ->
  scan {| args := a; current_arg := cur; in_quotes := Some q |} t
  = {| args := a; current_arg := cur ++ t; in_quotes := Some q |}.
Proof.
  revert cur; induction t as [|c t IH]; intros cur Ht; simpl.
  - now rewrite append_nil_r.
  - simpl in Ht. apply andb_true_iff in Ht as [Hc Ht].
    apply negb_true_iff in Hc. unfold scan_char. cbn [in_quotes args current_arg].
    rewrite Hc, IH by assumption. unfold push_char. now rewrite append_assoc.
Qed.

(** X10: a quoted span adds its text, as it stands, to the argument being
    read: read outside quotes, the quote character [q], a text free of
    [q] (blanks and the other quote character allowed) and [q] again
    leave the collected arguments as they were, no quote open, and the
    buffer extended by the text.  An argument string made of one such
    span alone gives the text as its only argument, the empty text
    included. *)
Theorem quoted_span_verbatim (q : ascii) (t : string) :
  is_quote q = true ->
  all_chars (fun c => negb (Ascii.eqb c q)) t = true ->
  (forall a cur,
     scan {| args := a; current_arg := cur; in_quotes := None |}
          (String q (t ++ String q ""))
     = {| args := a; current_arg := cur ++ t; in_quotes := None |})
  /\ parse_args (String q (t ++ String q "")) = [t].
Proof.
  intros Hq Ht.
  assert (Hscan : forall a cur,
     scan {| args := a; current_arg := cur; in_quotes := None |}
          (String q (t ++ String q ""))
     = {| args := a; current_arg := cur ++ t; in_quotes := None |}).
  { intros a cur. cbn [scan]. unfold scan_char at 1. cbn [in_quotes args current_arg].
    rewrite Hq, scan_app, scan_inside_quotes by assumption.
    cbn [scan]. unfold scan_char. cbn [in_quotes args current_arg].
    now rewrite Ascii.eqb_refl. }
  split; [exact Hscan|].
  unfold parse_args, scan_init. rewrite Hscan.
  unfold scan_finish, final_push. cbn [args current_arg in_quotes append is_none is_nil].
  destruct t as [|c t']; [|reflexivity].
  cbn [truthy String.eqb orb andb append].
  unfold is_quote in Hq. apply orb_true_iff in Hq as [Hq|Hq];
    apply Ascii.eqb_eq in Hq; subst q; reflexivity.
Qed.

(** A use of [quoted_span_verbatim]: a name with a blank and an
    apostrophe between double quotes. *)
Lemma quoted_span_verbatim_witness :
  parse_args (String dquote ("Mary O'Neil" ++ String dquote "")) = ["Mary O'Neil"].
Proof.
  apply (quoted_span_verbatim dquote "Mary O'Neil"); reflexivity.
Defined.

Lemma scan_char_args_length (st : scan_state) (c : ascii) :
  length (args (scan_char st c))
  <= length (args st) + (if Ascii.eqb c " " then 1 else 0).
Proof.
  unfold scan_char. destruct (in_quotes st) as [q|].
  - destruct (Ascii.eqb c q); cbn [args]; lia.
  - destruct (is_quote c); cbn [args]; [lia|].
    destruct (Ascii.eqb c " "); cbn [args]; [|lia].
    destruct (truthy (current_arg st)); rewrite ?length_app; simpl; lia.
Qed.

Lemma scan_args_length (s : string) (st : scan_state) :
  length (args (scan st s)) <= length (args st) + count_spaces s.
Proof.
  revert st; induction s as [|c s IH]; intros st; simpl; [lia|].
  specialize (IH (scan_char st c)).
  pose proof (scan_char_args_length st c). lia.
Qed.

Lemma count_spaces_append (a b : string) :
  count_spaces (a ++ b) = count_spaces a + count_spaces b.
Proof. induction a as [|c a IH]; simpl; [reflexivity | rewrite IH; lia]. Qed.

Lemma count_spaces_word (w : string) :
  all_chars nonspace w = true -> count_spaces w = 0.
Proof.
  induction w as [|c w IH]; simpl; [reflexivity|].
  rewrite andb_true_iff. intros [Hc Hw].
  now rewrite (nonspace_not_blank c Hc), IH.
Qed.

Lemma count_spaces_join (w : string) (ws : list string) :
  Forall (fun w => is_word w = true) (w :: ws) ->
  count_spaces (join " " (w :: ws)) = length ws.
Proof.
  revert w; induction ws as [|w' ws IH]; intros w Hall;
    inversion Hall as [|? ? Hw Hws]; subst;
    unfold is_word in Hw; apply andb_true_iff in Hw as [_ Hw].
  - simpl. now apply count_spaces_word.
  - change (join " " (w :: w' :: ws))
      with (w ++ String " " (join " " (w' :: ws))).
    rewrite count_spaces_append, count_spaces_word by assumption.
    cbn [count_spaces]. change (Ascii.eqb " " " ") with true. cbn iota.
    rewrite IH by assumption. reflexivity.
Qed.

Lemma parse_args_length (s : string) :
  length (parse_args s) <= S (count_spaces s).
Proof.
  unfold parse_args, scan_finish.
  pose proof (scan_args_length s scan_init) as H. simpl in H.
  destruct (final_push _ _); rewrite ?length_app; simpl; lia.
Qed.

(** X11: quoting can only merge words: the tokenizer never returns more
    arguments than the line has words after the first. *)
Theorem argument_count_bound (line : string) :
  length (snd (parse_input line)) <= pred (length (split line)).
Proof.
  rewrite parse_input_words. pose proof (split_words line) as Hall.
  destruct (split line) as [|w [|w' ws]]; cbn [snd length pred]; try lia.
  inversion Hall as [|? ? _ Hws]; subst.
  pose proof (parse_args_length (join " " (w' :: ws))) as H.
  rewrite count_spaces_join in H by assumption. exact H.
Qed.

(** X12: whitespace is normalized before quotes are read, so quoting
    does not protect it: no argument holds a whitespace character other
    than the space, whatever the line. *)
Theorem arguments_hold_only_spaces (line : string) :
  Forall (fun a => all_chars normal_char a = true) (snd (parse_input line)).
Proof.
  rewrite parse_input_words. pose proof (split_words line) as Hall.
  destruct (split line) as [|w [|w' ws]]; cbn [snd]; try constructor.
  inversion Hall as [|? ? _ Hws]; subst.
  now apply parse_args_chars, join_words_normal.
Qed.

End TokenizerFacts.

(** * Properties of the memoized Fibonacci function *)

Section FibonacciFacts.

Import CachingFibonacci.

Lemma fibonacci_unfold (n : Z) (cache : Cache) :
  fibonacci n cache =
  if (n <? 0)%Z then (Raise ValueError, cache)
  else if (n <=? 0)%Z then (Return 0%Z, cache)
  else if (n =? 1)%Z then (Return 1%Z, cache)
  else match cache_get n cache with
       | Some v => (Return v, cache)
       | None =>
           match fibonacci (n - 1) cache with
           | (Raise e, cache1) => (Raise e, cache1)
           | (Return a, cache1) =>
               match fibonacci (n - 2) cache1 with
               | (Raise e, cache2) => (Raise e, cache2)
               | (Return b, cache2) =>
                   (Return (a + b)%Z, cache_set n (a + b) cache2)
               end
           end
       end.
Proof.
  rewrite fibonacci_equation_1.
  destruct (Z_lt_dec n 0) as [Hlt|Hlt]; cbn;
    destruct (Z.ltb_spec n 0); try lia; [reflexivity|].
  destruct (Z_le_dec n 0) as [Hle|Hle]; cbn;
    destruct (Z.leb_spec n 0); try lia; [reflexivity|].
  destruct (Z.eq_dec n 1) as [He|He]; cbn;
    destruct (Z.eqb_spec n 1); try lia; [reflexivity|].
  destruct (cache_get n cache); cbn; [reflexivity|].
  destruct (fibonacci (n - 1) cache) as [[a|e] c1]; cbn; [|reflexivity].
  destruct (fibonacci (n - 2) c1) as [[b|e] c2]; reflexivity.
Qed.

Lemma cache_get_set_same (n v : Z) (cache : Cache) :
  cache_get n (cache_set n v cache) = Some v.
Proof.
  induction cache as [|[k w] l IH]; simpl.
  - now rewrite Z.eqb_refl.
  - destruct (Z.eqb k n) eqn:E; simpl; now rewrite E.
Qed.

Lemma cache_get_set_other (k n v : Z) (cache : Cache) :
  k <> n -> cache_get k (cache_set n v cache) = cache_get k cache.
Proof.
  intros Hne. induction cache as [|[k' w] l IH]; simpl.
  - destruct (Z.eqb_spec n k); [congruence | reflexivity].
  - destruct (Z.eqb_spec k' n); simpl.
    + subst k'. destruct (Z.eqb_spec n k); [congruence | reflexivity].
    + now rewrite IH.
Qed.

Lemma fib_step (n : Z) : (2 <= n)%Z -> fib n = (fib (n - 1) + fib (n - 2))%Z.
Proof.
  intros Hn. unfold fib.
  replace (Z.to_nat n) with (S (S (Z.to_nat (n - 2)))) by lia.
  replace (Z.to_nat (n - 1)) with (S (Z.to_nat (n - 2))) by lia.
  reflexivity.
Qed.

Example fib_10 : fib 10 = 55%Z.
Proof. reflexivity. Qed.

(** What a call on a number that is not negative does, in one piece. *)
Lemma fibonacci_nonneg (n : Z) :
  (0 <= n)%Z ->
  forall cache, exists v cache',
    fibonacci n cache = (Return v, cache')
    /\ cache_extends cache cache'
    /\ ((2 <= n)%Z -> cache_get n cache' = Some v)
    /\ (cache_sound cache -> v = fib n /\ cache_sound cache').
Proof.
  intros Hn. pattern n. apply Zlt_0_ind; [|exact Hn]. clear n Hn.
  intros n IH Hn cache.
  rewrite fibonacci_unfold.
  destruct (Z.ltb_spec n 0); [lia|].
  destruct (Z.leb_spec n 0).
  { exists 0%Z, cache. assert (n = 0%Z) as -> by lia.
    split; [reflexivity|]. split; [now intros k v|]. split; [lia|].
    intros Hs. now split. }
  destruct (Z.eqb_spec n 1).
  { exists 1%Z, cache. subst n.
    split; [reflexivity|]. split; [now intros k v|]. split; [lia|].
    intros Hs. now split. }
  destruct (cache_get n cache) as [v|] eqn:Hget.
  { exists v, cache.
    split; [reflexivity|]. split; [now intros k w|]. split; [now intros _|].
    intros Hs. split; [now apply Hs | assumption]. }
  destruct (IH (n - 1)%Z ltac:(lia) cache) as (a & c1 & -> & Hext1 & _ & Hs1).
  destruct (IH (n - 2)%Z ltac:(lia) c1) as (b & c2 & -> & Hext2 & _ & Hs2).
  exists (a + b)%Z, (cache_set n (a + b) c2). split; [reflexivity|].
  split; [|split].
  - intros k w Hk. rewrite cache_get_set_other by congruence. auto.
  - intros _. apply cache_get_set_same.
  - intros Hsound. destruct (Hs1 Hsound) as [-> Hsound1].
    destruct (Hs2 Hsound1) as [-> Hsound2].
    rewrite <- fib_step by lia. split; [reflexivity|].
    intros k w. destruct (Z.eq_dec k n) as [->|Hne].
    + rewrite cache_get_set_same. congruence.
    + rewrite cache_get_set_other by assumption. apply Hsound2.
Qed.



(** X14: on a cache whose entries are Fibonacci numbers of their keys,
    the empty cache of a new closure among them, a call on a number that
    is not negative returns its Fibonacci number and leaves such a cache
    again. *)
Theorem fibonacci_correct (n : Z) (cache : Cache) :
  (0 <= n)%Z ->
  cache_sound cache ->
  exists cache',
    fibonacci n cache = (Return (fib n), cache') /\ cache_sound cache'.
Proof.
  intros Hn Hsound.
  destruct (fibonacci_nonneg n Hn cache) as (v & c' & H & _ & _ & Hs).
  destruct (Hs Hsound) as [-> Hsound']. now exists c'.
Qed.

Lemma empty_cache_sound : cache_sound caching_fibonacci.
Proof. intros k v H. discriminate H. Qed.

(** A use of [fibonacci_correct]: the tenth number from a new closure. *)
Lemma fibonacci_correct_witness :
  exists cache',
    fibonacci 10 caching_fibonacci = (Return (fib 10), cache')
    /\ cache_sound cache'.
Proof.
  apply (fibonacci_correct 10 caching_fibonacci); [lia|].
  exact empty_cache_sound.
Defined.




End FibonacciFacts.

(** * Properties of the log analyzer *)

Section LogAnalyzerFacts.

Import LogAnalyzer.

Lemma str_eqb_eq (a b : str) : str_eqb a b = true <-> a = b.
Proof.
  revert b; induction a as [|x a IH]; intros [|y b]; simpl;
    try (split; [discriminate | congruence]); [tauto|].
  rewrite andb_true_iff, N.eqb_eq, IH. split.
  - intros [-> ->]. reflexivity.
  - intros H. injection H as -> ->. now split.
Qed.

Lemma str_eqb_refl (a : str) : str_eqb a a = true.
Proof. now apply str_eqb_eq. Qed.

Lemma str_eqb_neq (a b : str) : str_eqb a b = false <-> a <> b.
Proof.
  rewrite <- str_eqb_eq. destruct (str_eqb a b); split; congruence.
Qed.

(** *** [strip] *)

Lemma lstrip_head (s : str) :
  match lstrip s with [] => True | c :: _ => isspace c = false end.
Proof.
  induction s as [|c s IH]; simpl; [exact I|].
  destruct (isspace c) eqn:E; [exact IH | exact E].
Qed.

Lemma rstrip_head (c : N) (s : str) :
  isspace c = false -> exists r, rstrip (c :: s) = c :: r.
Proof.
  intros Hc. simpl. rewrite Hc. destruct (rstrip s) as [|x r]; eauto.
Qed.

Lemma rstrip_idem (s : str) : rstrip (rstrip s) = rstrip s.
Proof.
  induction s as [|c s IH]; simpl; [reflexivity|].
  destruct (rstrip s) as [|x r] eqn:Hr.
  - destruct (isspace c) eqn:Hc; simpl; [reflexivity | now rewrite Hc].
  - change (rstrip (c :: x :: r)) with
      (match rstrip (x :: r) with
       | [] => if isspace c then [] else [c]
       | r' => c :: r'
       end).
    now rewrite IH.
Qed.

Lemma strip_idem (s : str) : strip (strip s) = strip s.
Proof.
  unfold strip. pose proof (lstrip_head s) as Hh.
  destruct (lstrip s) as [|c t]; [reflexivity|].
  destruct (rstrip_head c t Hh) as [r Hr]. rewrite Hr.
  cbn [lstrip]. rewrite Hh, <- Hr. apply rstrip_idem.
Qed.

Lemma rstrip_snoc_space (s : str) (c : N) :
  isspace c = true -> rstrip (s ++ [c])%list = rstrip s.
Proof.
  intros Hc. induction s as [|x s IH]; simpl; [now rewrite Hc|].
  now rewrite IH.
Qed.

Lemma lstrip_snoc_space (s : str) (c : N) :
  isspace c = true ->
  lstrip (s ++ [c])%list = match lstrip s with [] => [] | t => (t ++ [c])%list end.
Proof.
  intros Hc. induction s as [|x s IH]; simpl; [now rewrite Hc|].
  destruct (isspace x); [exact IH | reflexivity].
Qed.

Lemma strip_snoc_space (s : str) (c : N) :
  isspace c = true -> strip (s ++ [c])%list = strip s.
Proof.
  intros Hc. unfold strip. rewrite lstrip_snoc_space by assumption.
  destruct (lstrip s) as [|x t]; [reflexivity|].
  now apply rstrip_snoc_space.
Qed.

Lemma strip_cons_space (s : str) (c : N) :
  isspace c = true -> strip (c :: s) = strip s.
Proof. intros Hc. unfold strip. simpl. now rewrite Hc. Qed.

(** *** [split] on a separator *)

Lemma break_at_some (sep : N) (s a b : str) :
  break_at sep s = Some (a, b) -> s = (a ++ sep :: b)%list /\ ~ In sep a.
Proof.
  revert a; induction s as [|c s IH]; intros a; simpl; [discriminate|].
  destruct (N.eqb_spec c sep) as [->|Hne].
  - intros H. injection H as <- <-. split; [reflexivity | intros []].
  - destruct (break_at sep s) as [[a' b']|]; [|discriminate].
    intros H. injection H as <- <-.
    destruct (IH a' eq_refl) as [-> Hnot]. split; [reflexivity|].
    intros [H|H]; [congruence | contradiction].
Qed.

Lemma break_at_none (sep : N) (s : str) :
  break_at sep s = None <-> ~ In sep s.
Proof.
  induction s as [|c s IH]; simpl; [tauto|].
  destruct (N.eqb_spec c sep) as [->|Hne].
  - split; [discriminate | intros H; elim H; now left].
  - destruct (break_at sep s) as [[a b]|].
    + split; [discriminate|]. intros H. exfalso.
      assert (Hs : ~ In sep s) by tauto. apply IH in Hs. discriminate Hs.
    + split; [|reflexivity]. intros _ [H|H]; [congruence|].
      now apply (proj1 IH).
Qed.

Lemma count_occ_break (sep : N) (s a b : str) :
  break_at sep s = Some (a, b) ->
  count_occ N.eq_dec s sep = S (count_occ N.eq_dec b sep).
Proof.
  intros H. apply break_at_some in H as [-> Hnot].
  rewrite count_occ_app. apply (count_occ_not_In N.eq_dec) in Hnot.
  rewrite Hnot. simpl. now destruct (N.eq_dec sep sep).
Qed.

Lemma split_sep_length (sep : N) (maxsplit : nat) (s : str) :
  length (split_sep sep maxsplit s)
  = S (Nat.min maxsplit (count_occ N.eq_dec s sep)).
Proof.
  revert s; induction maxsplit as [|m IH]; intros s; [reflexivity|].
  cbn [split_sep]. destruct (break_at sep s) as [[a b]|] eqn:Hb.
  - rewrite (count_occ_break sep s a b Hb). cbn [length]. now rewrite IH.
  - apply break_at_none, (count_occ_not_In N.eq_dec) in Hb. now rewrite Hb.
Qed.

(** *** [parse_log_line] *)

Lemma known_level_in (lvl : str) :
  existsb (str_eqb lvl) LOG_LEVELS = true -> In lvl LOG_LEVELS.
Proof.
  intros H. apply existsb_exists in H as (x & Hin & Heq).
  apply str_eqb_eq in Heq. now subst x.
Qed.

(** Either a log of a known level and nothing printed, or no log and
    one diagnostic. *)
Lemma parse_log_line_cases (upper : str -> str) (line : str) :
  (exists entry, parse_log_line upper line = (Some entry, [])
                 /\ In (level entry) LOG_LEVELS)
  \/ (exists d, parse_log_line upper line = (None, [d])).
Proof.
  unfold parse_log_line.
  destruct (split_sep space 3 (strip line)) as [|p0 [|p1 [|p2 [|p3 l]]]];
    try (right; eexists; reflexivity).
  cbv zeta. destruct (existsb (str_eqb (upper p2)) LOG_LEVELS) eqn:E; cbn [negb].
  - left. eexists. split; [reflexivity|]. now apply known_level_in.
  - right. eexists. reflexivity.
Qed.

(** X17: a line that [parse_log_line] accepts prints nothing; its
    stripped text is the date, a space, the time, a space, a third field
    and a space followed by the rest, the first three free of spaces;
    the level is the third field in upper case and is one of the four
    known levels; the message is the rest, stripped. *)
Theorem parse_log_line_accepted
    (upper : str -> str) (line : str) (entry : log) (printed : list diagnostic) :
  parse_log_line upper line = (Some entry, printed) ->
  printed = []
  /\ In (level entry) LOG_LEVELS
  /\ exists p2 p3,
       strip line
       = (date entry ++ space :: time entry ++ space :: p2 ++ space :: p3)%list
       /\ ~ In space (date entry) /\ ~ In space (time entry) /\ ~ In space p2
       /\ level entry = upper p2
       /\ message entry = strip p3.
Proof.
  unfold parse_log_line. cbn [split_sep].
  destruct (break_at space (strip line)) as [[p0 r1]|] eqn:H0; [|discriminate].
  destruct (break_at space r1) as [[p1 r2]|] eqn:H1; [|discriminate].
  destruct (break_at space r2) as [[p2 p3]|] eqn:H2; [|discriminate].
  cbv zeta. destruct (existsb (str_eqb (upper p2)) LOG_LEVELS) eqn:E;
    cbn [negb]; [|discriminate].
  intros H. injection H as <- <-. cbn [date time level message].
  apply break_at_some in H0 as [-> N0], H1 as [-> N1], H2 as [-> N2].
  split; [reflexivity|]. split; [now apply known_level_in|].
  exists p2, p3. repeat split; assumption.
Qed.

(** A use of [parse_log_line_accepted] on a line of level info. *)
Lemma parse_log_line_accepted_witness :
  parse_log_line upper_ascii sample_line = (Some sample_log, [])
  /\ In (level sample_log) LOG_LEVELS
  /\ exists p2 p3,
       strip sample_line
       = (date sample_log ++ space :: time sample_log
            ++ space :: p2 ++ space :: p3)%list
       /\ ~ In space (date sample_log) /\ ~ In space (time sample_log)
       /\ ~ In space p2
       /\ level sample_log = upper_ascii p2
       /\ message sample_log = strip p3.
Proof.
  split; [reflexivity|].
  apply (parse_log_line_accepted upper_ascii sample_line sample_log []).
  reflexivity.
Defined.

(** X18: every call of [parse_log_line] either returns a log and prints
    nothing or returns nothing and prints one diagnostic; the diagnostic
    is the one of the incorrect format exactly when the stripped line
    has fewer than three spaces. *)
Theorem parse_log_line_outcome (upper : str -> str) (line : str) :
  ((exists entry, parse_log_line upper line = (Some entry, []))
   \/ (exists d, parse_log_line upper line = (None, [d])))
  /\ (parse_log_line upper line = (None, [IncorrectFormat (strip line)])
      <-> count_occ N.eq_dec (strip line) space < 3).
Proof.
  split.
  - destruct (parse_log_line_cases upper line) as [(e & H & _)|H];
      [left; now exists e | now right].
  - pose proof (split_sep_length space 3 (strip line)) as Hlen.
    unfold parse_log_line.
    destruct (split_sep space 3 (strip line)) as [|p0 [|p1 [|p2 [|p3 l]]]];
      cbn [length] in Hlen; try (split; [intros _; lia | reflexivity]).
    cbv zeta. split.
    + destruct (negb _); intros H; discriminate H.
    + lia.
Qed.

(** X19: whitespace around a line does not matter to [parse_log_line]:
    a whitespace character put before the line or after it, such as the
    newline that ends a line of a file, changes neither the log nor the
    diagnostic, and neither does stripping the line beforehand. *)
Theorem parse_log_line_ignores_blank_ends
    (upper : str -> str) (line : str) (c : N) :
  isspace c = true ->
  parse_log_line upper (c :: line) = parse_log_line upper line
  /\ parse_log_line upper (line ++ [c])%list = parse_log_line upper line
  /\ parse_log_line upper (strip line) = parse_log_line upper line.
Proof.
  intros Hc. unfold parse_log_line.
  now rewrite strip_cons_space, strip_snoc_space, strip_idem.
Qed.

(** A use of [parse_log_line_ignores_blank_ends] with the newline. *)
Lemma parse_log_line_ignores_blank_ends_witness :
  parse_log_line upper_ascii (of_string "a b error c" ++ [10%N])%list
  = parse_log_line upper_ascii (of_string "a b error c").
Proof.
  apply (parse_log_line_ignores_blank_ends upper_ascii
           (of_string "a b error c") 10%N).
  reflexivity.
Defined.

(** *** [load_logs] *)



(** *** Counting and filtering *)

Lemma counts_get_increment_same (key : str) (counts : list (str * nat)) :
  counts_get key (increment key counts)
  = Some (S (match counts_get key counts with Some n => n | None => 0 end)).
Proof.
  induction counts as [|[k n] l IH]; simpl.
  - now rewrite str_eqb_refl.
  - destruct (str_eqb k key) eqn:E; simpl; now rewrite E.
Qed.

Lemma counts_get_increment_other (key other : str) (counts : list (str * nat)) :
  other <> key ->
  counts_get other (increment key counts) = counts_get other counts.
Proof.
  intros Hne. induction counts as [|[k n] l IH]; simpl.
  - apply not_eq_sym, str_eqb_neq in Hne. now rewrite Hne.
  - destruct (str_eqb k key) eqn:E; simpl.
    + apply str_eqb_eq in E. subst k.
      apply not_eq_sym, str_eqb_neq in Hne. now rewrite Hne.
    + now rewrite IH.
Qed.

Lemma total_increment (key : str) (counts : list (str * nat)) :
  total (increment key counts) = S (total counts).
Proof.
  unfold total. induction counts as [|[k n] l IH]; cbn [increment]; [reflexivity|].
  destruct (str_eqb k key); cbn [fold_right snd]; [reflexivity|].
  rewrite IH. lia.
Qed.

Lemma count_from (logs : list log) :
  forall (counts : list (str * nat)) (lvl : str),
  let result :=
    fold_left (fun counts entry => increment (level entry) counts) logs counts in
  counts_get lvl result
  = match counts_get lvl counts, occurrences lvl logs with
    | None, O => None
    | None, S n => Some (S n)
    | Some m, n => Some (m + n)
    end
  /\ total result = total counts + length logs.
Proof.
  induction logs as [|e logs IH]; intros counts lvl; cbn [fold_left].
  - unfold occurrences. cbn. split; [|lia].
    destruct (counts_get lvl counts); [f_equal; lia | reflexivity].
  - destruct (IH (increment (level e) counts) lvl) as [Hget Htot].
    cbv zeta in *. rewrite Hget, Htot, total_increment. split; [|cbn; lia].
    unfold occurrences. cbn [filter].
    destruct (str_eqb (level e) lvl) eqn:E.
    + apply str_eqb_eq in E. subst lvl. rewrite counts_get_increment_same.
      cbn [length].
      destruct (counts_get (level e) counts); f_equal; lia.
    + apply str_eqb_neq in E.
      rewrite counts_get_increment_other by congruence. reflexivity.
Qed.

(** X21: [count_logs_by_level] counts right: a level that no log has is
    not a key of the result, any other level is a key and its value is
    the number of logs of that level; the values add up to the number of
    logs. *)
Theorem count_logs_by_level_counts (logs : list log) (lvl : str) :
  counts_get lvl (count_logs_by_level logs)
  = (if Nat.eqb (occurrences lvl logs) 0 then None
     else Some (occurrences lvl logs))
  /\ total (count_logs_by_level logs) = length logs.
Proof.
  unfold count_logs_by_level.
  destruct (count_from logs [] lvl) as [Hget Htot]. cbv zeta in *.
  rewrite Hget, Htot. split; [|reflexivity].
  cbn [counts_get]. now destruct (occurrences lvl logs).
Qed.


End LogAnalyzerFacts.
